(** * Open/R KvStore: merge engine, value comparator, filters and full-sync diff

    A shallow embedding of [openr/kvstore/KvStoreUtil.cpp]
    ([mergeKeyValues], [compareValues], [KvStoreFilters::keyMatch],
    [dumpDifference]) and of the flood-rate validation exercised by
    [openr/config/tests/ConfigTest.cpp].

    - [std::unordered_map<std::string, thrift::Value>] is a [gmap string Value];
      the order in which a range-for visits it is unspecified, so the loops are
      defined over an explicit visiting order (a list of entries).
    - [std::set<std::string>] is a [gset string].
    - [int64_t] fields are [Z]; the code only compares them.
    - Dereferencing [kvStore.end()], dereferencing an unset thrift optional
      field and a failed [CHECK] are modelled as explicit outcomes. *)

From Stdlib Require Import ZArith String Ascii List Lia.
From stdpp Require Import gmap strings list fin_maps.

Local Open Scope Z_scope.

(** ** Data model *)

(** [thrift::Value]. [value] and [hash] are thrift optional fields. *)
Record Value := mkValue {
  version : Z;
  originatorId : string;
  value : option string;
  ttl : Z;
  ttlVersion : Z;
  hash : option Z
}.

Global Instance Value_eq_dec : EqDecision Value.
Proof. solve_decision. Defined.

(** [thrift::FilterOperator]. *)
Inductive FilterOperator := OR | AND.

Global Instance FilterOperator_eq_dec : EqDecision FilterOperator.
Proof. solve_decision. Defined.

(** [KvStoreFilters]: [keyRegexSet_] is built from [keyPrefixList_] by the
    constructor, so it is not a field of its own here. *)
Record KvStoreFilters := mkKvStoreFilters {
  keyPrefixList_ : list string;
  originatorIds_ : gset string;
  filterOperator_ : FilterOperator
}.

(** [thrift::Publication], restricted to the fields [dumpDifference] writes. *)
Record Publication := mkPublication {
  area : string;
  keyVals : gmap string Value;
  tobeUpdatedKeys : option (list string)
}.

(** ** What the code takes from outside this translation unit

    - [string_compare] is [std::string::compare]: the C++ standard fixes the
      sign of its result and nothing more.
    - [kTtlInfinity] is [Constants::kTtlInfinity], declared in Constants.h.
    - [generateHash] is the digest helper of openr/common/Util.
    - [re2_match pattern key] is one anchored RE2 pattern tried on a key. *)
Class Platform := {
  string_compare : string → string → Z;
  string_compare_sign : ∀ a b,
    match String.compare a b with
    | Eq => string_compare a b = 0
    | Lt => string_compare a b < 0
    | Gt => 0 < string_compare a b
    end;
  kTtlInfinity : Z;
  generateHash : Z → string → option string → Z;
  re2_match : string → string → bool
}.

(** How a call can fail to return. *)
Inductive Fault :=
| InvalidIterator   (* [kvStore.end()] is dereferenced: undefined behaviour *)
| BadFieldAccess.   (* [*ref] on an unset optional field: thrift throws *)

(** The result of running (part of) [mergeKeyValues] on a store passed by
    reference: it returns with the store and the publication built so far, or
    throws and leaves the store as mutated up to that point, or is undefined,
    or a [CHECK] fails and the process aborts. *)
Inductive Outcome :=
| Done (kvStore kvUpdates : gmap string Value)
| Thrown (kvStore : gmap string Value)
| Undefined
| Aborted.

Section KvStoreUtil.
Context `{P : Platform}.

(** [operator>] and [operator==] of [std::string]. *)
Definition string_gt (a b : string) : bool := 0 <? string_compare a b.
Definition string_eq (a b : string) : bool := String.eqb a b.

(** Modelled from the spec: [RegexSet::match] (openr/common/Util) is missing
    from the sources; section 4.1 describes it as the patterns compiled into
    one set, which a key matches when it matches any of them. *)
Definition RegexSet_match (patterns : list string) (key : string) : bool :=
  existsb (λ p, re2_match p key) patterns.

(** ** KvStoreFilters *)

Definition is_empty_list {A} (l : list A) : bool :=
  match l with [] => true | _ => false end.

Definition set_empty (s : gset string) : bool := bool_decide (s = ∅).
Definition set_count (s : gset string) (x : string) : bool := bool_decide (x ∈ s).

Definition keyMatchAny (f : KvStoreFilters) (key : string) (v : Value) : bool :=
  if is_empty_list (keyPrefixList_ f) && set_empty (originatorIds_ f) then true
  else if negb (is_empty_list (keyPrefixList_ f))
          && RegexSet_match (keyPrefixList_ f) key then true
  else if negb (set_empty (originatorIds_ f))
          && set_count (originatorIds_ f) (originatorId v) then true
  else false.

Definition keyMatchAll (f : KvStoreFilters) (key : string) (v : Value) : bool :=
  if is_empty_list (keyPrefixList_ f) && set_empty (originatorIds_ f) then true
  else if negb (is_empty_list (keyPrefixList_ f))
          && negb (RegexSet_match (keyPrefixList_ f) key) then false
  else if negb (set_empty (originatorIds_ f))
          && negb (set_count (originatorIds_ f) (originatorId v)) then false
  else true.

Definition keyMatch (f : KvStoreFilters) (key : string) (v : Value) : bool :=
  match filterOperator_ f with
  | OR => keyMatchAny f key v
  | AND => keyMatchAll f key v
  end.

(** ** mergeKeyValues *)

(** The first two guards of the loop body: [true] when the entry is skipped
    by the filter or for its invalid ttl. *)
Definition filteredOut (filters : option KvStoreFilters) (key : string) (v : Value) : bool :=
  match filters with
  | Some f => negb (keyMatch f key v)
  | None => false
  end.

Definition ttlInvalid (v : Value) : bool :=
  negb (ttl v =? kTtlInfinity) && (ttl v <=? 0).

(** [myVersion]: zero unless the key is found. *)
Definition myVersionOf (kvStoreIt : option Value) : Z :=
  match kvStoreIt with
  | Some cur => version cur
  | None => 0
  end.

(** [*kvStoreIt] and [*field_ref]. *)
Definition derefIt (kvStoreIt : option Value) : Fault + Value :=
  match kvStoreIt with
  | Some cur => inr cur
  | None => inl InvalidIterator
  end.

Definition derefOpt {A} (o : option A) : Fault + A :=
  match o with
  | Some a => inr a
  | None => inl BadFieldAccess
  end.

(** "Check updateAll and updateTtl", the block guarded by
    [value.value_ref().has_value()]. Returns
    [(updateAllNeeded, updateTtlNeeded)]. *)
Definition checkUpdateAll (inc : Value) (kvStoreIt : option Value)
  : Fault + (bool * bool) :=
  match value inc with
  | None => inr (false, false)
  | Some newVal =>
    if myVersionOf kvStoreIt <? version inc then inr (true, false)
    else
      match derefIt kvStoreIt with
      | inl e => inl e
      | inr cur =>
        if string_gt (originatorId inc) (originatorId cur) then inr (true, false)
        else if string_eq (originatorId inc) (originatorId cur) then
          match derefOpt (value cur) with
          | inl e => inl e
          | inr curVal =>
            let rc := string_compare newVal curVal in
            if 0 <? rc then inr (true, false)
            else if rc =? 0 then
              if ttlVersion cur <? ttlVersion inc then inr (false, true)
              else inr (false, false)
            else inr (false, false)
          end
        else inr (false, false)
      end
  end.

(** "Check updateTtl", the second block. *)
Definition checkUpdateTtl (inc : Value) (kvStoreIt : option Value) : bool :=
  match value inc, kvStoreIt with
  | None, Some cur =>
      (version inc =? version cur)
      && string_eq (originatorId inc) (originatorId cur)
      && (ttlVersion cur <? ttlVersion inc)
  | _, _ => false
  end.

(** "update hash if it's not there". *)
Definition fillHash (inc : Value) : Value :=
  match hash inc with
  | Some _ => inc
  | None =>
    mkValue (version inc) (originatorId inc) (value inc) (ttl inc)
            (ttlVersion inc)
            (Some (generateHash (version inc) (originatorId inc) (value inc)))
  end.

(** "update TTL only, nothing else". *)
Definition refreshTtl (cur inc : Value) : Value :=
  mkValue (version cur) (originatorId cur) (value cur) (ttl inc)
          (ttlVersion inc) (hash cur).

(** [unordered_map::emplace]: no effect when the key is already there. *)
Definition emplace (key : string) (v : Value) (m : gmap string Value)
  : gmap string Value :=
  match m !! key with
  | Some _ => m
  | None => <[key := v]> m
  end.

(** One iteration of the loop of [mergeKeyValues]. *)
Definition mergeKeyValue (filters : option KvStoreFilters)
    (key : string) (inc : Value) (kvStore kvUpdates : gmap string Value)
  : Outcome :=
  if filteredOut filters key inc then Done kvStore kvUpdates
  else if ttlInvalid inc then Done kvStore kvUpdates
  else
    let kvStoreIt := kvStore !! key in
    if version inc <? myVersionOf kvStoreIt then Done kvStore kvUpdates
    else
      match checkUpdateAll inc kvStoreIt with
      | inl InvalidIterator => Undefined
      | inl BadFieldAccess => Thrown kvStore
      | inr (updateAllNeeded, updateTtlNeeded0) =>
        let updateTtlNeeded := updateTtlNeeded0 || checkUpdateTtl inc kvStoreIt in
        if negb updateAllNeeded && negb updateTtlNeeded then Done kvStore kvUpdates
        else if updateAllNeeded then
          match value inc with
          | Some _ =>
            Done (<[key := fillHash inc]> kvStore) (emplace key inc kvUpdates)
          | None => Aborted   (* CHECK(value.value_ref().has_value()) *)
          end
        else
          match kvStoreIt with
          | Some cur =>
            Done (<[key := refreshTtl cur inc]> kvStore) (emplace key inc kvUpdates)
          | None => Aborted   (* CHECK(kvStoreIt != kvStore.end()) *)
          end
      end.

(** The loop, over the entries in the order the range-for visits them. *)
Fixpoint mergeLoop (filters : option KvStoreFilters)
    (entries : list (string * Value)) (kvStore kvUpdates : gmap string Value)
  : Outcome :=
  match entries with
  | [] => Done kvStore kvUpdates
  | (key, inc) :: rest =>
    match mergeKeyValue filters key inc kvStore kvUpdates with
    | Done kvStore' kvUpdates' => mergeLoop filters rest kvStore' kvUpdates'
    | Thrown kvStore' => Thrown kvStore'
    | Undefined => Undefined
    | Aborted => Aborted
    end
  end.

(** [mergeKeyValues] when the batch is visited in the order [entries]. *)
Definition mergeKeyValuesIn (entries : list (string * Value))
    (kvStore : gmap string Value) (filters : option KvStoreFilters) : Outcome :=
  mergeLoop filters entries kvStore ∅.

Definition mergeKeyValues (kvStore keyVals : gmap string Value)
    (filters : option KvStoreFilters) : Outcome :=
  mergeKeyValuesIn (map_to_list keyVals) kvStore filters.

(** ** compareValues *)

Definition hashesEqual (v1 v2 : Value) : bool :=
  match hash v1, hash v2 with
  | Some h1, Some h2 => h1 =? h2
  | _, _ => false
  end.

Definition compareValues (v1 v2 : Value) : Z :=
  if negb (version v1 =? version v2) then
    if version v2 <? version v1 then 1 else -1
  else if negb (string_eq (originatorId v1) (originatorId v2)) then
    if string_gt (originatorId v1) (originatorId v2) then 1 else -1
  else if hashesEqual v1 v2 then
    if negb (ttlVersion v1 =? ttlVersion v2) then
      if ttlVersion v2 <? ttlVersion v1 then 1 else -1
    else 0
  else
    match value v1, value v2 with
    | Some a, Some b => string_compare a b
    | _, _ => -2
    end.

(** ** dumpDifference *)

(** The body of the loop over [allKeys]; [tobe] is
    [*thriftPub.tobeUpdatedKeys_ref()]. *)
Definition dumpKey (myKeyVal reqKeyVal : gmap string Value) (key : string)
    (acc : gmap string Value * list string) : gmap string Value * list string :=
  let '(kvs, tobe) := acc in
  match myKeyVal !! key with
  | None => (kvs, tobe ++ [key])
  | Some myVal =>
    match reqKeyVal !! key with
    | None => (emplace key myVal kvs, tobe)
    | Some reqVal =>
      let rc := compareValues myVal reqVal in
      let kvs' := if (rc =? 1) || (rc =? -2) then emplace key myVal kvs else kvs in
      let tobe' := if (rc =? -1) || (rc =? -2) then tobe ++ [key] else tobe in
      (kvs', tobe')
    end
  end.

(** [dumpDifference] when [allKeys] is visited in the order [keys]. *)
Definition dumpDifferenceIn (keys : list string) (a : string)
    (myKeyVal reqKeyVal : gmap string Value) : Publication :=
  let '(kvs, tobe) := foldl (λ acc key, dumpKey myKeyVal reqKeyVal key acc) (∅, []) keys in
  mkPublication a kvs (Some tobe).

Definition dumpDifference (a : string) (myKeyVal reqKeyVal : gmap string Value)
  : Publication :=
  dumpDifferenceIn (elements (dom myKeyVal ∪ dom reqKeyVal)) a myKeyVal reqKeyVal.

End KvStoreUtil.

(** ** Configuration: the flood-rate check *)

Module Config.

(** [thrift::KvstoreFloodRate], [thrift::KvstoreConfig] and
    [thrift::OpenrConfig], restricted to the fields the check reads. *)
Record KvstoreFloodRate := mkFloodRate {
  flood_msg_per_sec : Z;
  flood_msg_burst_size : Z
}.

Record KvstoreConfig := mkKvstoreConfig {
  flood_rate : option KvstoreFloodRate
}.

Record OpenrConfig := mkOpenrConfig {
  node_name : string;
  kvstore_config : KvstoreConfig
}.

(** The exceptions the constructor is tested to throw. *)
Inductive ConfigError := out_of_range | invalid_argument.

(** The constructed object: it keeps the configuration it was built from. *)
Record Config := mkConfig { getConfig : OpenrConfig }.

(** Modelled from the spec: the kvstore part of [Config]'s constructor
    (openr/config/Config.cpp is missing from the sources; only its test is
    present). Section 6.2: [floodRate.msgPerSec] and [floodRate.burstSize] are
    invalid if [≤ 0]; section 7: an out-of-range numeric is a construction
    failure. *)
Definition checkKvStoreConfig (c : KvstoreConfig) : option ConfigError :=
  match flood_rate c with
  | Some fr =>
    if flood_msg_per_sec fr <=? 0 then Some out_of_range
    else if flood_msg_burst_size fr <=? 0 then Some out_of_range
    else None
  | None => None
  end.

(** Modelled from the spec: [Config::Config(thrift::OpenrConfig)], which
    either throws or yields the object (section 7, "Config invalid").
    [otherChecks] is the validation of everything but the kvstore section
    (areas, spark, monitor, ...), which the spec leaves to an external
    collaborator. *)
Definition construct (otherChecks : OpenrConfig → option ConfigError)
    (c : OpenrConfig) : ConfigError + Config :=
  match otherChecks c with
  | Some e => inl e
  | None =>
    match checkKvStoreConfig (kvstore_config c) with
    | Some e => inl e
    | None => inr (mkConfig c)
    end
  end.

(** [getFloodRate()] of the test, and the two invalid variations it builds. *)
Definition getFloodRate : KvstoreFloodRate := mkFloodRate 1 1.

Definition confInvalidFloodMsgPerSec : OpenrConfig :=
  mkOpenrConfig "node-1" (mkKvstoreConfig (Some (mkFloodRate 0 1))).

Definition confInvalidFloodMsgBurstSize : OpenrConfig :=
  mkOpenrConfig "node-1" (mkKvstoreConfig (Some (mkFloodRate 1 0))).

End Config.

(** ** A concrete platform

    [std::string::compare] as libstdc++ implements it: [traits_type::compare]
    ([memcmp]) over the common length and, when that finds no difference, the
    difference of the two sizes clamped to [int]. Only the sign of [memcmp] is
    taken here; the size difference is returned as it is. *)
Module LibStdCxx.

Fixpoint memcmp (a b : string) (n : nat) : Z :=
  match n, a, b with
  | S n', String c1 a', String c2 b' =>
    match Ascii.compare c1 c2 with
    | Eq => memcmp a' b' n'
    | Lt => -1
    | Gt => 1
    end
  | _, _, _ => 0
  end.

Definition INT_MAX : Z := 2147483647.
Definition INT_MIN : Z := -2147483648.

Definition S_compare (n1 n2 : nat) : Z :=
  let d := Z.of_nat n1 - Z.of_nat n2 in
  if INT_MAX <? d then INT_MAX
  else if d <? INT_MIN then INT_MIN
  else d.

Definition compare (a b : string) : Z :=
  let r := memcmp a b (Nat.min (String.length a) (String.length b)) in
  if r =? 0 then S_compare (String.length a) (String.length b) else r.

(** A digest standing in for [generateHash] in concrete evaluations. *)
Definition sampleHash (v : Z) (orig : string) (val : option string) : Z :=
  v + Z.of_nat (String.length orig)
    + match val with Some s => Z.of_nat (String.length s) | None => 0 end.

End LibStdCxx.

(** ** Sample records for concrete evaluations *)

Module Sample.
Local Open Scope string_scope.

(** ("a", v=1, orig="x", value="A", ttlV=0, ttl=60000) and variations. *)
Definition rec (v : Z) (orig : string) (val : option string) (ttlV : Z) : Value :=
  mkValue v orig val 60000 ttlV None.

Definition a_v1_x_A : Value := rec 1 "x" (Some "A") 0.
Definition a_v1_y_B : Value := rec 1 "y" (Some "B") 0.
Definition a_v1_x_A_ttlv3 : Value := rec 1 "x" (Some "A") 3.
Definition refresh_v1_x_ttlv4 : Value := rec 1 "x" None 4.
Definition a_v1_x_novalue : Value := rec 1 "x" None 0.

(** A newer version whose ttl is 0. *)
Definition a_v2_x_B_ttl0 : Value := mkValue 2 "x" (Some "B") 0 0 None.
(** A record with a value and version 0, with a valid and with an invalid ttl. *)
Definition a_v0_x_A : Value := rec 0 "x" (Some "A") 0.
Definition a_v0_x_A_ttl0 : Value := mkValue 0 "x" (Some "A") 0 0 None.
Definition c_v1_z_C : Value := rec 1 "z" (Some "C") 0.

Definition storeA : gmap string Value := {[ "a" := a_v1_x_A ]}.

(** A batch over [storeA]: "a" comes with a larger originatorId, "c" is new. *)
Definition batchAC : gmap string Value :=
  {[ "a" := a_v1_y_B; "c" := c_v1_z_C ]}.

Definition storeAC : gmap string Value :=
  {[ "a" := mkValue 1 "y" (Some "B") 60000 0 (Some 3);
     "c" := mkValue 1 "z" (Some "C") 60000 0 (Some 3) ]}.

(** [storeA] with its hash filled in by [LibStdCxx.sampleHash]. *)
Definition storeAh : gmap string Value :=
  {[ "a" := mkValue 1 "x" (Some "A") 60000 0 (Some 3) ]}.

End Sample.

(** ** Vocabulary of the properties *)

(** What one iteration does to the entry of its key, as a function of the
    record found there. *)
Inductive Verdict :=
| Keep
| Put (v : Value)
| Fail (e : Fault).

(** [a] is lexicographically larger than [b], byte by byte. *)
Definition lex_gt (a b : string) : Prop := String.compare a b = Gt.

(** The incoming record wins on version, then originator, then value bytes. *)
Definition supersedes (inc cur : Value) : Prop :=
  version cur < version inc
  ∨ (version inc = version cur ∧ lex_gt (originatorId inc) (originatorId cur))
  ∨ (version inc = version cur ∧ originatorId inc = originatorId cur
     ∧ ∃ a b, value inc = Some a ∧ value cur = Some b ∧ lex_gt a b).

(** Same version, originator and value, and a strictly larger ttlVersion. *)
Definition ttlRefreshes (inc cur : Value) : Prop :=
  version inc = version cur ∧ originatorId inc = originatorId cur
  ∧ value inc = value cur ∧ ttlVersion cur < ttlVersion inc.

(** The entry passes the filter, if any, and carries a valid ttl. *)
Definition passesGuards `{P : Platform} (filters : option KvStoreFilters)
    (key : string) (inc : Value) : Prop :=
  filteredOut filters key inc = false ∧ ttlInvalid inc = false.

Global Instance passesGuards_dec `{P : Platform} filters key inc :
  Decision (passesGuards filters key inc).
Proof. unfold passesGuards. apply _. Defined.

(** [(version, originatorId)] of [a] is at most that of [b]: version first,
    then originatorId byte by byte. *)
Definition versionOriginatorLe (a b : Value) : Prop :=
  version a < version b
  ∨ (version a = version b ∧ ¬ lex_gt (originatorId a) (originatorId b)).

(** Every key of [s] is still in [s'], with a pair that did not decrease. *)
Definition noDowngrade (s s' : gmap string Value) : Prop :=
  ∀ key cur, s !! key = Some cur →
    ∃ cur', s' !! key = Some cur' ∧ versionOriginatorLe cur cur'.

Section Vocabulary.
Context `{P : Platform}.

(** The loop body of [mergeKeyValues] seen from the record stored under its
    key. *)
Definition entryDecision (filters : option KvStoreFilters) (key : string)
    (inc : Value) (cur : option Value) : Verdict :=
  if filteredOut filters key inc then Keep
  else if ttlInvalid inc then Keep
  else if version inc <? myVersionOf cur then Keep
  else
    match checkUpdateAll inc cur with
    | inl e => Fail e
    | inr (updateAll, updateTtl0) =>
      if updateAll then Put (fillHash inc)
      else if updateTtl0 || checkUpdateTtl inc cur then
        match cur with
        | Some c => Put (refreshTtl c inc)
        | None => Keep
        end
      else Keep
    end.

Definition applyDecision (d : Verdict) (key : string) (inc : Value)
    (kvStore kvUpdates : gmap string Value) : Outcome :=
  match d with
  | Keep => Done kvStore kvUpdates
  | Put v => Done (<[key := v]> kvStore) (emplace key inc kvUpdates)
  | Fail InvalidIterator => Undefined
  | Fail BadFieldAccess => Thrown kvStore
  end.

(** What the loop leaves under a key it visits, when no key is visited twice. *)
Definition decisionHolds (d : Verdict) (key : string) (inc : Value)
    (s u s' u' : gmap string Value) : Prop :=
  match d with
  | Keep => s' !! key = s !! key ∧ u' !! key = u !! key
  | Put v => s' !! key = Some v ∧ u' !! key = emplace key inc u !! key
  | Fail _ => False
  end.

(** The loop returns exactly when no visited entry fails on the record the
    store holds for it at the start. *)
Definition noFailure (filters : option KvStoreFilters)
    (s : gmap string Value) (entries : list (string * Value)) : Prop :=
  ∀ key inc e, (key, inc) ∈ entries → entryDecision filters key inc (s !! key) ≠ Fail e.

(** Every stored record carries a value: what [mergeKeyValues] itself
    establishes, since only entries with a value are ever stored. *)
Definition storeHasValues (s : gmap string Value) : Prop :=
  ∀ key cur, s !! key = Some cur → is_Some (value cur).

(** Every incoming record that carries a value has a version of at least 1. *)
Definition versionsStartAtOne (batch : gmap string Value) : Prop :=
  ∀ key inc, batch !! key = Some inc → is_Some (value inc) → 1 ≤ version inc.

(** The key matches some pattern of the prefix list. *)
Definition matchesSomePrefix (f : KvStoreFilters) (key : string) : Prop :=
  ∃ p, p ∈ keyPrefixList_ f ∧ re2_match p key = true.

(** What the loop of [dumpDifference] decides for one key. *)
Definition sends (myKeyVal reqKeyVal : gmap string Value) (key : string)
  : option Value :=
  match myKeyVal !! key with
  | None => None
  | Some myVal =>
    match reqKeyVal !! key with
    | None => Some myVal
    | Some reqVal =>
      let rc := compareValues myVal reqVal in
      if (rc =? 1) || (rc =? -2) then Some myVal else None
    end
  end.

Definition wants (myKeyVal reqKeyVal : gmap string Value) (key : string) : bool :=
  match myKeyVal !! key with
  | None => true
  | Some myVal =>
    match reqKeyVal !! key with
    | None => false
    | Some reqVal =>
      let rc := compareValues myVal reqVal in
      (rc =? -1) || (rc =? -2)
    end
  end.

End Vocabulary.

(** What one call of [mergeKeyValues] can leave in the store it is given:
    the store it returns with, or the store as mutated when thrift throws. The
    batch may be visited in any order. *)
Definition callLeaves `{P : Platform} (s s' : gmap string Value) : Prop :=
  ∃ (batch : gmap string Value) entries filters,
    entries ≡ₚ map_to_list batch
    ∧ ((∃ delta, mergeKeyValuesIn entries s filters = Done s' delta)
       ∨ mergeKeyValuesIn entries s filters = Thrown s').

(** ** getKvStoreFilters *)

(** The part of [Config] that [getKvStoreFilters] reads:
    [getKvStoreConfig().set_leaf_node_ref()], [key_prefix_filters_ref()] and
    [key_originator_id_filters_ref()] (thrift optional fields) and
    [getNodeName()]. *)
Record LeafConfig := mkLeafConfig {
  set_leaf_node : option bool;
  key_prefix_filters : option (list string);
  key_originator_id_filters : option (list string);
  getNodeName : string
}.

Section GetKvStoreFilters.
(** [Constants::kPrefixAllocMarker] and [Constants::kNodeLabelRangePrefix],
    declared in Constants.h. *)
Variables kPrefixAllocMarker kNodeLabelRangePrefix : string.

(** [getKvStoreFilters]. The filter is built with the two-argument form of
    the constructor. Modelled from the spec: the default of the third
    argument is declared in KvStoreUtil.h, which is missing; section 4.1
    gives it ("Default ANY", "always under ANY semantics"). *)
Definition getKvStoreFilters (config : LeafConfig) : option KvStoreFilters :=
  if default false (set_leaf_node config) then
    let keyPrefixFilters :=
      default [] (key_prefix_filters config)
      ++ [kPrefixAllocMarker] ++ [kNodeLabelRangePrefix] in
    let originatorIdFilters : gset string :=
      list_to_set (default [] (key_originator_id_filters config))
      ∪ {[ getNodeName config ]} in
    Some (mkKvStoreFilters keyPrefixFilters originatorIdFilters OR)
  else None.

End GetKvStoreFilters.

(** A leaf node "x" with one configured prefix, for concrete evaluations. *)
Definition leafX : LeafConfig :=
  mkLeafConfig (Some true) (Some ["adj:"%string]) None "x".

(** ** More vocabulary *)

(** The ttl of every stored record is [kTtlInfinity] or positive. *)
Definition storeTtlsValid `{P : Platform} (s : gmap string Value) : Prop :=
  ∀ key cur, s !! key = Some cur → ttlInvalid cur = false.

(** A hash, where present, is the digest of version, originatorId and value. *)
Definition hashConsistent `{P : Platform} (v : Value) : Prop :=
  ∀ h, hash v = Some h → h = generateHash (version v) (originatorId v) (value v).

(** Every stored record has its hash, and it is the right one. *)
Definition storeHashed `{P : Platform} (s : gmap string Value) : Prop :=
  ∀ key cur, s !! key = Some cur → is_Some (hash cur) ∧ hashConsistent cur.

(** What conflict resolution looks at. *)
Definition rank (v : Value) : Z * string * option string * Z :=
  (version v, originatorId v, value v, ttlVersion v).

(** [x] is strictly ahead of [y]: it wins on version, originatorId or value,
    or ties on these with a larger ttlVersion. *)
Definition newer (x y : Value) : Prop := supersedes x y ∨ ttlRefreshes x y.

(** When an entry makes its iteration fail, read off the store. *)
Definition entryFaults `{P : Platform} (filters : option KvStoreFilters)
    (key : string) (inc : Value) (cur : option Value) : Prop :=
  passesGuards filters key inc ∧ is_Some (value inc)
  ∧ match cur with
    | None => version inc = 0
    | Some c =>
      version inc = version c ∧ originatorId inc = originatorId c
      ∧ value c = None
    end.

(** The entries of a batch that a filter lets through. *)
Definition filterBatch `{P : Platform} (f : KvStoreFilters)
    (batch : gmap string Value) : gmap string Value :=
  filter (λ kv, keyMatch f kv.1 kv.2 = true) batch.

(** *** Comparing ranks *)

(** A three-way comparison that is a total order. *)
Record GoodCmp {K : Type} (cmp : K → K → comparison) : Prop := mkGoodCmp {
  cmp_eq : ∀ x y, cmp x y = Eq ↔ x = y;
  cmp_antisym : ∀ x y, cmp y x = CompOpp (cmp x y);
  cmp_gt_trans : ∀ x y z, cmp x y = Gt → cmp y z = Gt → cmp x z = Gt
}.

(** The larger of an incoming [x] and a stored [y]; the stored one on a tie. *)
Definition pick {K : Type} (cmp : K → K → comparison) (x y : K) : K :=
  match cmp x y with Gt => x | _ => y end.

(** First component first. *)
Definition lexCmp {A B : Type} (ca : A → A → comparison)
    (cb : B → B → comparison) (x y : A * B) : comparison :=
  match ca x.1 y.1 with
  | Eq => cb x.2 y.2
  | c => c
  end.

(** An absent value sorts before any value; values compare byte by byte. *)
Definition cmpValue (x y : option string) : comparison :=
  match x, y with
  | Some a, Some b => String.compare a b
  | None, None => Eq
  | None, Some _ => Lt
  | Some _, None => Gt
  end.

(** Version, then originatorId, then value, then ttlVersion. *)
Definition cmpRank : Z * string * option string * Z
                     → Z * string * option string * Z → comparison :=
  lexCmp (lexCmp (lexCmp Z.compare String.compare) cmpValue) Z.compare.

(** The record a store holds under a key after one more single-record call,
    when that call returns: the loop body as a function on the entry. *)
Definition resolve `{P : Platform} (filters : option KvStoreFilters)
    (key : string) (inc : Value) (cur : option Value) : option Value :=
  match entryDecision filters key inc cur with
  | Put v => Some v
  | _ => cur
  end.

(** The rank under a key after one more record. *)
Definition stepRank (passes : bool) (incR : Z * string * option string * Z)
    (curR : option (Z * string * option string * Z))
  : option (Z * string * option string * Z) :=
  if passes then
    Some (match curR with
          | None => incR
          | Some c => pick cmpRank incR c
          end)
  else curR.

(** * Properties *)

(** ** The libstdc++ platform *)

Section LibStdCxxFacts.
Import LibStdCxx.

Lemma LibStdCxx_compare_sign a b :
  match String.compare a b with
  | Eq => compare a b = 0
  | Lt => compare a b < 0
  | Gt => 0 < compare a b
  end.
Proof.
  unfold LibStdCxx.compare. revert b.
  induction a as [|c1 a IH]; intros [|c2 b]; simpl.
  - reflexivity.
  - unfold S_compare, INT_MAX, INT_MIN; simpl; repeat case_match; lia.
  - unfold S_compare, INT_MAX, INT_MIN; simpl; repeat case_match; lia.
  - destruct (Ascii.compare c1 c2); simpl; try lia.
    specialize (IH b).
    destruct (memcmp a b (Nat.min (String.length a) (String.length b)) =? 0) eqn:E.
    + assert (S_compare (S (String.length a)) (S (String.length b))
              = S_compare (String.length a) (String.length b)) as ->.
      { unfold S_compare.
        replace (Z.of_nat (S (String.length a)) - Z.of_nat (S (String.length b)))
          with (Z.of_nat (String.length a) - Z.of_nat (String.length b)) by lia.
        reflexivity. }
      exact IH.
    + exact IH.
Qed.

End LibStdCxxFacts.

(** The platform used for concrete evaluations: libstdc++'s [compare],
    [kTtlInfinity] a negative sentinel (INT32_MIN), [sampleHash] for the
    digest, and literal prefixes for the anchored patterns. *)
Global Instance libstdcxx : Platform := {|
  string_compare := LibStdCxx.compare;
  string_compare_sign := LibStdCxx_compare_sign;
  kTtlInfinity := -2147483648;
  generateHash := LibStdCxx.sampleHash;
  re2_match := String.prefix
|}.

(** ** The lexicographic order on byte strings *)

Lemma ascii_compare_refl c : Ascii.compare c c = Eq.
Proof. unfold Ascii.compare. apply N.compare_refl. Qed.

Lemma ascii_compare_gt_trans c1 c2 c3 :
  Ascii.compare c1 c2 = Gt → Ascii.compare c2 c3 = Gt → Ascii.compare c1 c3 = Gt.
Proof.
  unfold Ascii.compare. rewrite !N.compare_gt_iff. intros; etransitivity; eauto.
Qed.

Lemma string_compare_refl s : String.compare s s = Eq.
Proof. induction s as [|c s IH]; simpl; [done|]. by rewrite ascii_compare_refl. Qed.

Lemma string_compare_eq a b : String.compare a b = Eq ↔ a = b.
Proof.
  split; [apply String.compare_eq_iff | intros ->; apply string_compare_refl].
Qed.

Lemma string_compare_gt_trans a b c :
  String.compare a b = Gt → String.compare b c = Gt → String.compare a c = Gt.
Proof.
  revert b c. induction a as [|x a IH]; intros [|y b] [|z c]; simpl; try done.
  destruct (Ascii.compare x y) eqn:Hxy; try done;
    destruct (Ascii.compare y z) eqn:Hyz; try done; intros Hab Hbc.
  - apply Ascii.compare_eq_iff in Hxy, Hyz. subst.
    rewrite ascii_compare_refl. eauto.
  - apply Ascii.compare_eq_iff in Hxy. subst. by rewrite Hyz.
  - apply Ascii.compare_eq_iff in Hyz. subst. by rewrite Hxy.
  - by rewrite (ascii_compare_gt_trans _ _ _ Hxy Hyz).
Qed.

Lemma string_compare_gt_irrefl a : String.compare a a ≠ Gt.
Proof. by rewrite string_compare_refl. Qed.

Lemma string_compare_gt_asym a b :
  String.compare a b = Gt → String.compare b a ≠ Gt.
Proof. rewrite (String.compare_antisym b a). by intros ->. Qed.

(** ** Properties of the merge engine *)

Section MergeTheory.
Context `{P : Platform}.

Lemma string_gt_spec a b : string_gt a b = true ↔ String.compare a b = Gt.
Proof.
  unfold string_gt. pose proof (string_compare_sign a b) as H.
  rewrite Z.ltb_lt. destruct (String.compare a b); split; (done || lia).
Qed.

Lemma string_compare_zero a b : string_compare a b = 0 ↔ a = b.
Proof.
  pose proof (string_compare_sign a b) as H. rewrite <- string_compare_eq.
  destruct (String.compare a b); split; (done || lia).
Qed.

Lemma string_compare_pos a b : 0 < string_compare a b ↔ String.compare a b = Gt.
Proof. rewrite <- string_gt_spec. unfold string_gt. by rewrite Z.ltb_lt. Qed.

Lemma string_eq_spec a b : string_eq a b = true ↔ a = b.
Proof. apply String.eqb_eq. Qed.

Lemma checkUpdateAll_true inc cur b :
  checkUpdateAll inc cur = inr (true, b) → is_Some (value inc).
Proof. unfold checkUpdateAll. destruct (value inc); [eauto | done]. Qed.

Lemma checkUpdateAll_ttl inc cur a :
  checkUpdateAll inc cur = inr (a, true) → is_Some cur.
Proof.
  unfold checkUpdateAll. destruct (value inc); [|done].
  destruct (myVersionOf cur <? version inc); [done|].
  destruct cur; simpl; [eauto | done].
Qed.

Lemma checkUpdateTtl_true inc cur :
  checkUpdateTtl inc cur = true → is_Some cur.
Proof. unfold checkUpdateTtl. destruct (value inc), cur; eauto; done. Qed.

(** The loop body reads and writes the store only at its own key, and no
    [CHECK] ever fails. *)
Lemma mergeKeyValue_decision filters key inc kvStore kvUpdates :
  mergeKeyValue filters key inc kvStore kvUpdates
  = applyDecision (entryDecision filters key inc (kvStore !! key))
                  key inc kvStore kvUpdates.
Proof.
  unfold mergeKeyValue, entryDecision.
  destruct (filteredOut filters key inc); [done|].
  destruct (ttlInvalid inc); [done|].
  destruct (version inc <? myVersionOf (kvStore !! key)); [done|].
  destruct (checkUpdateAll inc (kvStore !! key)) as [[]|[[] b]] eqn:Hc; simpl; try done.
  - apply checkUpdateAll_true in Hc as [? ->]. done.
  - destruct b; simpl.
    + apply checkUpdateAll_ttl in Hc as [? ->]. done.
    + destruct (checkUpdateTtl inc (kvStore !! key)) eqn:Ht; simpl; [|done].
      apply checkUpdateTtl_true in Ht as [? ->]. done.
Qed.

(** *** [emplace] *)

Lemma emplace_lookup_ne k k' v (m : gmap string Value) :
  k ≠ k' → emplace k v m !! k' = m !! k'.
Proof.
  intros Hne. unfold emplace. destruct (m !! k); [done|]. by rewrite lookup_insert_ne.
Qed.

Lemma emplace_lookup_fresh k v (m : gmap string Value) :
  m !! k = None → emplace k v m !! k = Some v.
Proof. intros H. unfold emplace. rewrite H. by rewrite lookup_insert_eq. Qed.

(** *** The loop touches only the keys it visits *)

Lemma applyDecision_other d key inc s u s' u' k :
  applyDecision d key inc s u = Done s' u' → k ≠ key →
  s' !! k = s !! k ∧ u' !! k = u !! k.
Proof.
  destruct d as [|v|[]]; simpl; intros [= <- <-] Hne; try done.
  rewrite lookup_insert_ne by done. by rewrite emplace_lookup_ne.
Qed.

Lemma mergeLoop_lookup_other filters entries s u s' u' k :
  mergeLoop filters entries s u = Done s' u' →
  k ∉ entries.*1 →
  s' !! k = s !! k ∧ u' !! k = u !! k.
Proof.
  revert s u. induction entries as [|[key inc] rest IH]; simpl; intros s u.
  - by intros [= <- <-].
  - intros Hrun [Hne Hrest]%not_elem_of_cons.
    destruct (mergeKeyValue filters key inc s u) as [s1 u1| | |] eqn:Hstep; try done.
    rewrite mergeKeyValue_decision in Hstep.
    destruct (applyDecision_other _ _ _ _ _ _ _ k Hstep Hne) as [Hs Hu].
    destruct (IH _ _ Hrun Hrest) as [Hs' Hu']. by rewrite Hs', Hu', Hs, Hu.
Qed.

Lemma mergeLoop_lookup_at filters entries s u s' u' key inc :
  NoDup entries.*1 →
  (key, inc) ∈ entries →
  mergeLoop filters entries s u = Done s' u' →
  decisionHolds (entryDecision filters key inc (s !! key)) key inc s u s' u'.
Proof.
  revert s u. induction entries as [|[k0 v0] rest IH]; simpl; intros s u Hnd Hin Hrun.
  - by apply elem_of_nil in Hin.
  - apply NoDup_cons in Hnd as [Hfresh Hnd].
    destruct (mergeKeyValue filters k0 v0 s u) as [s1 u1| | |] eqn:Hstep; try done.
    rewrite mergeKeyValue_decision in Hstep.
    apply elem_of_cons in Hin as [[= <- <-]|Hin].
    + destruct (mergeLoop_lookup_other _ _ _ _ _ _ key Hrun Hfresh) as [Hs Hu].
      unfold decisionHolds. rewrite Hs, Hu.
      destruct (entryDecision filters key inc (s !! key)) as [|v|[]];
        simpl in Hstep; try done; injection Hstep as <- <-; [done|].
      by rewrite lookup_insert_eq.
    + assert (key ≠ k0) as Hne.
      { intros ->. apply Hfresh. apply list_elem_of_fmap. by exists (k0, inc). }
      destruct (applyDecision_other _ _ _ _ _ _ _ key Hstep Hne) as [Hs Hu].
      specialize (IH _ _ Hnd Hin Hrun). rewrite Hs in IH.
      unfold decisionHolds in *.
      destruct (entryDecision filters key inc (s !! key)); [| |done].
      * by rewrite <- Hs, <- Hu.
      * destruct IH as [-> ->]. split; [done|].
        unfold emplace. rewrite Hu.
        destruct (u !! key) eqn:E; [by rewrite Hu, E|]. by rewrite !lookup_insert_eq.
Qed.

Lemma mergeLoop_returns filters entries s u :
  NoDup entries.*1 →
  noFailure filters s entries →
  ∃ s' u', mergeLoop filters entries s u = Done s' u'.
Proof.
  revert s u. induction entries as [|[k0 v0] rest IH]; simpl; intros s u Hnd Hok.
  - eauto.
  - apply NoDup_cons in Hnd as [Hfresh Hnd].
    rewrite mergeKeyValue_decision.
    assert (∀ s1 u1, applyDecision (entryDecision filters k0 v0 (s !! k0)) k0 v0 s u
                     = Done s1 u1 → noFailure filters s1 rest) as Hrest.
    { intros s1 u1 Hstep key inc e Hin.
      assert (key ≠ k0) as Hne.
      { intros ->. apply Hfresh. apply list_elem_of_fmap. by exists (k0, inc). }
      destruct (applyDecision_other _ _ _ _ _ _ _ key Hstep Hne) as [-> _].
      apply Hok. by right. }
    pose proof (Hok k0 v0) as Hhead.
    destruct (entryDecision filters k0 v0 (s !! k0)) as [|v|e]; simpl in *.
    + apply IH; eauto.
    + apply IH; eauto.
    + exfalso. eapply Hhead; [by left | done].
Qed.

Lemma mergeLoop_returns_inv filters entries s u s' u' :
  NoDup entries.*1 →
  mergeLoop filters entries s u = Done s' u' →
  noFailure filters s entries.
Proof.
  intros Hnd Hrun key inc e Hin Hd.
  pose proof (mergeLoop_lookup_at _ _ _ _ _ _ _ _ Hnd Hin Hrun) as H.
  by rewrite Hd in H.
Qed.

End MergeTheory.

(** *** The loop body, case by case *)

(** Turns the boolean tests of the code into the propositions they decide. *)
Ltac bool_to_prop :=
  repeat match goal with
  | H : (_ <? _) = true |- _ => apply Z.ltb_lt in H
  | H : (_ <? _) = false |- _ => apply Z.ltb_ge in H
  | H : (_ =? _) = true |- _ => apply Z.eqb_eq in H
  | H : (_ =? _) = false |- _ => apply Z.eqb_neq in H
  | H : string_gt _ _ = true |- _ => apply string_gt_spec in H
  | H : string_gt _ _ = false |- _ =>
      apply not_true_iff_false in H; rewrite string_gt_spec in H
  | H : string_eq _ _ = true |- _ => apply string_eq_spec in H
  | H : string_eq _ _ = false |- _ =>
      apply not_true_iff_false in H; rewrite string_eq_spec in H
  | H : string_compare _ _ = 0 |- _ => apply string_compare_zero in H
  | H : 0 < string_compare _ _ |- _ => apply string_compare_pos in H
  | H : ¬ 0 < string_compare _ _ |- _ => rewrite string_compare_pos in H
  | H : string_compare _ _ ≤ 0 |- _ =>
      apply Z.le_ngt in H; rewrite string_compare_pos in H
  | H : string_compare _ _ ≠ 0 |- _ => rewrite string_compare_zero in H
  end.

Section MergeSpec.
Context `{P : Platform}.

Lemma entryDecision_skipped filters key inc cur :
  ¬ passesGuards filters key inc → entryDecision filters key inc cur = Keep.
Proof.
  unfold passesGuards, entryDecision.
  destruct (filteredOut filters key inc); [done|].
  destruct (ttlInvalid inc); [done|]. intros []. done.
Qed.

(** An entry that passes the guards and carries a value, against a stored
    record. *)
Lemma entryDecision_value filters key inc cur :
  passesGuards filters key inc → is_Some (value inc) →
  (supersedes inc cur
     ∧ entryDecision filters key inc (Some cur) = Put (fillHash inc))
  ∨ (¬ supersedes inc cur ∧ ttlRefreshes inc cur
     ∧ entryDecision filters key inc (Some cur) = Put (refreshTtl cur inc))
  ∨ (¬ supersedes inc cur ∧ ¬ ttlRefreshes inc cur
     ∧ entryDecision filters key inc (Some cur) = Keep)
  ∨ (version inc = version cur ∧ originatorId inc = originatorId cur
     ∧ value cur = None
     ∧ entryDecision filters key inc (Some cur) = Fail BadFieldAccess).
Proof.
  intros [Hf Ht] [nv Hnv]. unfold entryDecision. rewrite Hf, Ht. simpl.
  unfold supersedes, ttlRefreshes, lex_gt.
  destruct (Z.ltb_spec (version inc) (version cur)) as [Hold|Hge].
  { right; right; left. split_and!; [|lia|done]. intros [?|[[? _]|[? _]]]; lia. }
  unfold checkUpdateAll. rewrite Hnv. simpl.
  destruct (Z.ltb_spec (version cur) (version inc)) as [Hnew|Hle].
  { left. split; [by left | done]. }
  assert (version inc = version cur) as Hv by lia.
  destruct (string_gt (originatorId inc) (originatorId cur)) eqn:Hgt; bool_to_prop.
  { left. split; [right; left; done | done]. }
  destruct (string_eq (originatorId inc) (originatorId cur)) eqn:Heq; bool_to_prop.
  2:{ right; right; left. split_and!; [|tauto|].
      - intros [?|[[_ ?]|[_ [? _]]]]; (lia || done).
      - unfold checkUpdateTtl. by rewrite Hnv. }
  destruct (value cur) as [cv|] eqn:Hcv; simpl.
  2:{ right; right; right. done. }
  destruct (Z.ltb_spec 0 (string_compare nv cv)) as [Hpos|Hnpos]; bool_to_prop.
  { left. split; [|done]. right; right. split_and!; [done..|]. by exists nv, cv. }
  assert (¬ (version cur < version inc
             ∨ version inc = version cur ∧ String.compare (originatorId inc) (originatorId cur) = Gt
             ∨ version inc = version cur ∧ originatorId inc = originatorId cur
               ∧ ∃ a b, Some nv = Some a ∧ Some cv = Some b ∧ String.compare a b = Gt))
    as Hns.
  { intros [?|[[_ ?]|(_ & _ & a & b & [= <-] & [= <-] & ?)]]; (lia || done). }
  unfold checkUpdateTtl. rewrite Hnv.
  destruct (Z.eqb_spec (string_compare nv cv) 0) as [Hz|Hnz]; bool_to_prop.
  - subst cv. destruct (Z.ltb_spec (ttlVersion cur) (ttlVersion inc)); simpl.
    + right; left. done.
    + right; right; left. split_and!; [done| |done]. intros (_ & _ & _ & ?). lia.
  - right; right; left. split_and!; [done| |done]. intros (_ & _ & [= ?] & _). done.
Qed.

(** An entry that passes the guards and carries a value, for a key the store
    lacks:
    [myVersion] is 0 and the iterator is [end()]. *)
Lemma entryDecision_absent filters key inc :
  passesGuards filters key inc → is_Some (value inc) →
  entryDecision filters key inc None
  = if 0 <? version inc then Put (fillHash inc)
    else if version inc =? 0 then Fail InvalidIterator
    else Keep.
Proof.
  intros [Hf Ht] [nv Hnv]. unfold entryDecision. rewrite Hf, Ht. simpl.
  unfold checkUpdateAll. rewrite Hnv. simpl.
  destruct (Z.ltb_spec (version inc) 0), (Z.ltb_spec 0 (version inc)),
    (Z.eqb_spec (version inc) 0); (done || lia).
Qed.

(** An entry without a value: a ttl refresh or nothing, never a failure. *)
Lemma entryDecision_ttl_only filters key inc cur :
  value inc = None →
  entryDecision filters key inc cur
  = match cur with
    | Some c =>
      if bool_decide (passesGuards filters key inc)
         && (version inc =? version c)
         && string_eq (originatorId inc) (originatorId c)
         && (ttlVersion c <? ttlVersion inc)
      then Put (refreshTtl c inc) else Keep
    | None => Keep
    end.
Proof.
  intros Hnv. destruct (decide (passesGuards filters key inc)) as [[Hf Ht]|Hna].
  2:{ rewrite entryDecision_skipped by done.
      rewrite bool_decide_eq_false_2 by done. by destruct cur. }
  rewrite bool_decide_eq_true_2 by done.
  unfold entryDecision. rewrite Hf, Ht.
  unfold checkUpdateAll, checkUpdateTtl. rewrite Hnv. simpl.
  destruct cur as [c|]; simpl.
  - destruct (Z.ltb_spec (version inc) (version c)).
    + destruct (Z.eqb_spec (version inc) (version c)); [lia | done].
    + by repeat case_match.
  - by case_match.
Qed.

(** Where the iterator fault comes from. *)
Lemma entryDecision_invalid_iterator filters key inc cur :
  entryDecision filters key inc cur = Fail InvalidIterator →
  cur = None ∧ is_Some (value inc) ∧ version inc = 0 ∧ passesGuards filters key inc.
Proof.
  unfold entryDecision, passesGuards.
  destruct (filteredOut filters key inc); [done|].
  destruct (ttlInvalid inc); [done|].
  destruct (Z.ltb_spec (version inc) (myVersionOf cur)); [done|].
  unfold checkUpdateAll.
  destruct (value inc) as [nv|]; simpl.
  2:{ destruct (checkUpdateTtl inc cur); [destruct cur|]; done. }
  destruct (Z.ltb_spec (myVersionOf cur) (version inc)); [done|].
  destruct cur as [c|]; simpl in *.
  - destruct (value c); simpl; repeat case_match; by simplify_eq.
  - intros _. split_and!; eauto. lia.
Qed.

(** Where the exception comes from. *)
Lemma entryDecision_bad_field_access filters key inc cur :
  entryDecision filters key inc cur = Fail BadFieldAccess →
  ∃ c, cur = Some c ∧ value c = None ∧ is_Some (value inc)
       ∧ version inc = version c ∧ originatorId inc = originatorId c.
Proof.
  unfold entryDecision.
  destruct (filteredOut filters key inc); [done|].
  destruct (ttlInvalid inc); [done|].
  destruct (Z.ltb_spec (version inc) (myVersionOf cur)); [done|].
  unfold checkUpdateAll.
  destruct (value inc) as [nv|]; simpl.
  2:{ destruct (checkUpdateTtl inc cur); [destruct cur|]; done. }
  destruct (Z.ltb_spec (myVersionOf cur) (version inc)); [done|].
  destruct cur as [c|]; simpl in *; [|done].
  destruct (string_gt (originatorId inc) (originatorId c)); [done|].
  destruct (string_eq (originatorId inc) (originatorId c)) eqn:Heq; bool_to_prop.
  2:{ by destruct (checkUpdateTtl inc (Some c)). }
  destruct (value c) as [cv|] eqn:Hcv; simpl.
  - repeat case_match; by simplify_eq.
  - intros _. exists c. split_and!; eauto. lia.
Qed.

(** *** From the loop to [mergeKeyValues] on a batch *)

Lemma mergeKeyValues_at filters store batch s' delta key inc :
  mergeKeyValues store batch filters = Done s' delta →
  batch !! key = Some inc →
  match entryDecision filters key inc (store !! key) with
  | Keep => s' !! key = store !! key ∧ delta !! key = None
  | Put v => s' !! key = Some v ∧ delta !! key = Some inc
  | Fail _ => False
  end.
Proof.
  intros Hrun Hin. unfold mergeKeyValues, mergeKeyValuesIn in Hrun.
  apply elem_of_map_to_list in Hin.
  pose proof (mergeLoop_lookup_at _ _ _ _ _ _ _ _
                (NoDup_fst_map_to_list batch) Hin Hrun) as H.
  unfold decisionHolds in H.
  destruct (entryDecision filters key inc (store !! key)); [|
    rewrite emplace_lookup_fresh in H by apply lookup_empty |]; done.
Qed.

Lemma mergeKeyValues_other filters store batch s' delta key :
  mergeKeyValues store batch filters = Done s' delta →
  batch !! key = None →
  s' !! key = store !! key ∧ delta !! key = None.
Proof.
  intros Hrun Hout. unfold mergeKeyValues, mergeKeyValuesIn in Hrun.
  eapply mergeLoop_lookup_other in Hrun as [-> ->]; [done|].
  intros [[k v] [-> Hin]]%list_elem_of_fmap.
  apply elem_of_map_to_list in Hin. simpl in *. congruence.
Qed.

Lemma mergeLoop_all_keep filters entries s u :
  (∀ key inc, (key, inc) ∈ entries → entryDecision filters key inc (s !! key) = Keep) →
  mergeLoop filters entries s u = Done s u.
Proof.
  induction entries as [|[k0 v0] rest IH]; simpl; intros Hkeep; [done|].
  rewrite mergeKeyValue_decision, (Hkeep k0 v0) by (by left). simpl.
  apply IH. intros key inc Hin. apply Hkeep. by right.
Qed.

(** *** The visiting order does not matter *)

Lemma mergeKeyValuesIn_permutation filters store l1 l2 s' delta :
  NoDup l1.*1 →
  l1 ≡ₚ l2 →
  mergeKeyValuesIn l1 store filters = Done s' delta →
  mergeKeyValuesIn l2 store filters = Done s' delta.
Proof.
  intros Hnd Hperm Hrun. unfold mergeKeyValuesIn in *.
  assert (NoDup l2.*1) as Hnd2 by (by rewrite <- Hperm).
  destruct (mergeLoop_returns filters l2 store ∅ Hnd2) as (s2 & d2 & Hrun2).
  { intros key inc e Hin. rewrite <- Hperm in Hin.
    by apply (mergeLoop_returns_inv _ _ _ _ _ _ Hnd Hrun). }
  rewrite Hrun2. enough (s2 = s' ∧ d2 = delta) as [-> ->] by done.
  enough (∀ k, s2 !! k = s' !! k ∧ d2 !! k = delta !! k) as Heq.
  { split; apply map_eq; intros k; apply Heq. }
  intros k. destruct (decide (k ∈ l1.*1)) as [Hin|Hout].
  - apply list_elem_of_fmap in Hin as [[k' inc] [-> Hin]]. simpl.
    pose proof (mergeLoop_lookup_at _ _ _ _ _ _ _ _ Hnd Hin Hrun) as H1.
    rewrite Hperm in Hin.
    pose proof (mergeLoop_lookup_at _ _ _ _ _ _ _ _ Hnd2 Hin Hrun2) as H2.
    unfold decisionHolds in *.
    destruct (entryDecision filters k' inc (store !! k')); [| |done];
      destruct H1 as [-> ->], H2 as [-> ->]; done.
  - destruct (mergeLoop_lookup_other _ _ _ _ _ _ k Hrun Hout) as [-> ->].
    rewrite Hperm in Hout.
    by destruct (mergeLoop_lookup_other _ _ _ _ _ _ k Hrun2 Hout) as [-> ->].
Qed.

(** In whatever order the range-for visits the batch, the call returns what
    [mergeKeyValues] returns. *)
Lemma mergeKeyValues_any_order filters store batch entries s' delta :
  entries ≡ₚ map_to_list batch →
  mergeKeyValuesIn entries store filters = Done s' delta
  ↔ mergeKeyValues store batch filters = Done s' delta.
Proof.
  intros Hperm. unfold mergeKeyValues. split.
  - apply mergeKeyValuesIn_permutation; [|done].
    rewrite Hperm. apply NoDup_fst_map_to_list.
  - apply mergeKeyValuesIn_permutation; [apply NoDup_fst_map_to_list | done].
Qed.

(** *** Stored records keep carrying a value *)

Lemma fillHash_value inc : value (fillHash inc) = value inc.
Proof. unfold fillHash. by destruct (hash inc). Qed.

Lemma entryDecision_put_value filters key inc cur v :
  (∀ c, cur = Some c → is_Some (value c)) →
  entryDecision filters key inc cur = Put v →
  is_Some (value v).
Proof.
  intros Hcur Hd.
  destruct (decide (passesGuards filters key inc)) as [Hpass|Hnpass];
    [|by rewrite entryDecision_skipped in Hd].
  destruct (value inc) as [nv|] eqn:Hnv.
  - assert (is_Some (value inc)) as Hval by (by rewrite Hnv).
    destruct cur as [c|].
    + destruct (entryDecision_value filters key inc c Hpass Hval) as
        [[_ Hd']|[(_ & _ & Hd')|[(_ & _ & Hd')|(_ & _ & _ & Hd')]]];
        rewrite Hd' in Hd; simplify_eq.
      * by rewrite fillHash_value.
      * exact (Hcur c eq_refl).
    + rewrite entryDecision_absent in Hd by done.
      repeat case_match; simplify_eq. by rewrite fillHash_value.
  - rewrite entryDecision_ttl_only in Hd by done.
    destruct cur as [c|]; [|done]. case_match; simplify_eq.
    exact (Hcur c eq_refl).
Qed.

(** X6. If every stored record carries a value before a call, it is so after
    the call returns: a ttl-only message never becomes a stored record. *)
Lemma mergeKeyValues_keeps_values filters store batch s' delta :
  storeHasValues store →
  mergeKeyValues store batch filters = Done s' delta →
  storeHasValues s'.
Proof.
  intros Hwf Hrun key cur' Hcur'.
  destruct (batch !! key) as [inc|] eqn:Hin.
  - pose proof (mergeKeyValues_at _ _ _ _ _ _ _ Hrun Hin) as H.
    destruct (entryDecision filters key inc (store !! key)) as [|v|] eqn:Hd;
      [| |done].
    + destruct H as [Hs _]. rewrite Hs in Hcur'. by eapply Hwf.
    + destruct H as [Hs _]. rewrite Hs in Hcur'. simplify_eq.
      eapply entryDecision_put_value; [|exact Hd].
      intros c Hc. by eapply Hwf.
  - destruct (mergeKeyValues_other _ _ _ _ _ key Hrun Hin) as [Hs _].
    rewrite Hs in Hcur'. by eapply Hwf.
Qed.

End MergeSpec.

(** *** Which outcomes are possible *)

Section MergeOutcomes.
Context `{P : Platform}.

Lemma mergeLoop_not_aborted filters entries s u :
  mergeLoop filters entries s u ≠ Aborted.
Proof.
  revert s u. induction entries as [|[k0 v0] rest IH]; simpl; intros s u; [done|].
  rewrite mergeKeyValue_decision.
  destruct (entryDecision filters k0 v0 (s !! k0)) as [|v|[]]; simpl; (done || apply IH).
Qed.

Lemma mergeLoop_defined filters entries s u :
  (∀ key inc cur, (key, inc) ∈ entries →
     entryDecision filters key inc cur ≠ Fail InvalidIterator) →
  mergeLoop filters entries s u ≠ Undefined.
Proof.
  revert s u. induction entries as [|[k0 v0] rest IH]; simpl; intros s u Hok; [done|].
  rewrite mergeKeyValue_decision.
  pose proof (Hok k0 v0 (s !! k0)) as Hhead.
  assert (∀ key inc cur, (key, inc) ∈ rest →
            entryDecision filters key inc cur ≠ Fail InvalidIterator) as Hrest.
  { intros key inc cur Hin. apply Hok. by right. }
  destruct (entryDecision filters k0 v0 (s !! k0)) as [|v|[]]; simpl;
    try done; try by apply IH.
  exfalso. apply Hhead; [by left | done].
Qed.

Lemma versionsStartAtOne_defined filters batch key inc cur :
  versionsStartAtOne batch → batch !! key = Some inc →
  entryDecision filters key inc cur ≠ Fail InvalidIterator.
Proof.
  intros Hpre Hin (_ & Hval & Hzero & _)%entryDecision_invalid_iterator.
  specialize (Hpre key inc Hin Hval). lia.
Qed.

(** The first entry that fails decides how the loop ends. *)
Lemma mergeLoop_fails_on filters entries s u key inc e :
  NoDup entries.*1 →
  (key, inc) ∈ entries →
  entryDecision filters key inc (s !! key) = Fail e →
  ∀ s' u', mergeLoop filters entries s u ≠ Done s' u'.
Proof.
  intros Hnd Hin Hfail s' u' Hrun.
  by apply (mergeLoop_returns_inv _ _ _ _ _ _ Hnd Hrun key inc e Hin).
Qed.

End MergeOutcomes.

(** *** No downgrade *)

Lemma versionOriginatorLe_refl a : versionOriginatorLe a a.
Proof. right. split; [done|]. apply string_compare_gt_irrefl. Qed.

Lemma versionOriginatorLe_trans a b c :
  versionOriginatorLe a b → versionOriginatorLe b c → versionOriginatorLe a c.
Proof.
  unfold versionOriginatorLe, lex_gt.
  intros [?|[Hv1 Ho1]] [?|[Hv2 Ho2]]; [left; lia..|].
  right. split; [lia|]. intros Hgt.
  destruct (String.compare (originatorId a) (originatorId b)) eqn:Hab; [| |done].
  - apply string_compare_eq in Hab. rewrite Hab in Hgt. done.
  - apply Ho2. apply (string_compare_gt_trans _ (originatorId a)); [|done].
    rewrite String.compare_antisym, Hab. done.
Qed.

Lemma noDowngrade_refl s : noDowngrade s s.
Proof. intros key cur ?. exists cur. split; [done | apply versionOriginatorLe_refl]. Qed.

Lemma noDowngrade_trans s1 s2 s3 :
  noDowngrade s1 s2 → noDowngrade s2 s3 → noDowngrade s1 s3.
Proof.
  intros H12 H23 key cur Hcur.
  destruct (H12 key cur Hcur) as (c2 & Hc2 & Hle2).
  destruct (H23 key c2 Hc2) as (c3 & Hc3 & Hle3).
  exists c3. split; [done|]. by eapply versionOriginatorLe_trans.
Qed.

Section NoDowngrade.
Context `{P : Platform}.

Lemma versionOriginatorLe_refreshTtl cur inc :
  versionOriginatorLe cur (refreshTtl cur inc).
Proof. right. split; [done|]. apply string_compare_gt_irrefl. Qed.

Lemma entryDecision_put_le filters key inc cur v :
  entryDecision filters key inc (Some cur) = Put v → versionOriginatorLe cur v.
Proof.
  intros Hd.
  destruct (decide (passesGuards filters key inc)) as [Hpass|Hnpass];
    [|by rewrite entryDecision_skipped in Hd].
  destruct (value inc) as [nv|] eqn:Hnv.
  - destruct (entryDecision_value filters key inc cur Hpass) as
      [[Hs Hd']|[(_ & Hr & Hd')|[(_ & _ & Hd')|(_ & _ & _ & Hd')]]];
      [by rewrite Hnv|..]; rewrite Hd' in Hd; simplify_eq.
    + assert (version (fillHash inc) = version inc
              ∧ originatorId (fillHash inc) = originatorId inc) as [Hv Ho].
      { unfold fillHash. by destruct (hash inc). }
      unfold versionOriginatorLe. rewrite Hv, Ho.
      destruct Hs as [?|[[Heq Hgt]|(Heq & Horig & _)]].
      * by left.
      * right. split; [done|]. by apply string_compare_gt_asym.
      * right. split; [done|]. rewrite Horig. apply string_compare_gt_irrefl.
    + apply versionOriginatorLe_refreshTtl.
  - rewrite entryDecision_ttl_only in Hd by done.
    case_match; simplify_eq. apply versionOriginatorLe_refreshTtl.
Qed.

Lemma applyDecision_noDowngrade filters key inc s u :
  match applyDecision (entryDecision filters key inc (s !! key)) key inc s u with
  | Done s' _ | Thrown s' => noDowngrade s s'
  | _ => True
  end.
Proof.
  destruct (entryDecision filters key inc (s !! key)) as [|v|[]] eqn:Hd; simpl;
    try done; try apply noDowngrade_refl.
  intros k cur Hcur. destruct (decide (k = key)) as [->|Hne].
  - rewrite lookup_insert_eq. exists v. split; [done|].
    rewrite Hcur in Hd. by eapply entryDecision_put_le.
  - rewrite lookup_insert_ne by done. exists cur.
    split; [done | apply versionOriginatorLe_refl].
Qed.

Lemma mergeLoop_noDowngrade filters entries s u :
  match mergeLoop filters entries s u with
  | Done s' _ | Thrown s' => noDowngrade s s'
  | _ => True
  end.
Proof.
  revert s u. induction entries as [|[k0 v0] rest IH]; simpl; intros s u.
  - apply noDowngrade_refl.
  - rewrite mergeKeyValue_decision.
    pose proof (applyDecision_noDowngrade filters k0 v0 s u) as Hstep.
    destruct (applyDecision _ k0 v0 s u) as [s1 u1|s1| |]; try done.
    specialize (IH s1 u1).
    destruct (mergeLoop filters rest s1 u1); try done;
      by eapply noDowngrade_trans.
Qed.

Lemma callLeaves_noDowngrade s s' : callLeaves s s' → noDowngrade s s'.
Proof.
  intros (batch & entries & filters & _ & Hrun).
  pose proof (mergeLoop_noDowngrade filters entries s ∅) as H.
  unfold mergeKeyValuesIn in Hrun.
  destruct Hrun as [[delta Hrun]|Hrun]; by rewrite Hrun in H.
Qed.

End NoDowngrade.

Section MergeClaims.
Context `{P : Platform}.

(** C1 (amended). When [mergeKeyValues] returns, a key of the batch that the
    store already holds and whose incoming record carries a value is resolved
    as follows. If the incoming record passes the guards (the filter, if one
    is given, accepts it and its ttl is [kTtlInfinity] or positive) and wins
    on version, then originatorId, then value bytes, it replaces the stored
    record (its hash filled in when absent) and is announced in the delta. If
    it passes the guards, does not win, and has the same version, originatorId
    and value with a strictly larger ttlVersion, only ttl and ttlVersion of
    the stored record are updated and it is announced. In every other case,
    including an entry stopped by a guard, the stored record is kept and the
    key is not in the delta. *)
Theorem mergeKeyValues_resolves_key filters store batch s' delta key inc cur :
  mergeKeyValues store batch filters = Done s' delta →
  batch !! key = Some inc →
  store !! key = Some cur →
  is_Some (value inc) →
  (passesGuards filters key inc ∧ supersedes inc cur
     ∧ s' !! key = Some (fillHash inc) ∧ delta !! key = Some inc)
  ∨ (passesGuards filters key inc ∧ ¬ supersedes inc cur ∧ ttlRefreshes inc cur
     ∧ s' !! key = Some (refreshTtl cur inc) ∧ delta !! key = Some inc)
  ∨ ((¬ passesGuards filters key inc ∨ (¬ supersedes inc cur ∧ ¬ ttlRefreshes inc cur))
     ∧ s' !! key = Some cur ∧ delta !! key = None).
Proof.
  intros Hrun Hin Hcur Hval.
  pose proof (mergeKeyValues_at _ _ _ _ _ _ _ Hrun Hin) as H. rewrite Hcur in H.
  destruct (decide (passesGuards filters key inc)) as [Hpass|Hnpass].
  - destruct (entryDecision_value filters key inc cur Hpass Hval)
      as [[Hs Hd]|[(Hns & Hr & Hd)|[(Hns & Hnr & Hd)|(_ & _ & _ & Hd)]]];
      rewrite Hd in H; [left | right; left | right; right | done].
    + by destruct H.
    + by destruct H.
    + destruct H. split_and!; [right|..]; done.
  - rewrite entryDecision_skipped in H by done. destruct H.
    right; right. split_and!; [left|..]; done.
Qed.

(** C4. For a stored record and an incoming record without a value, a
    returning [mergeKeyValues] either leaves the stored record as it is and
    does not announce the key, or the incoming version and originatorId equal
    the stored ones, the incoming ttlVersion is strictly larger, and the stored
    record takes the incoming ttl and ttlVersion; in both cases its value,
    version, originatorId and hash are unchanged. *)
Theorem mergeKeyValues_ttl_only_frame filters store batch s' delta key inc cur :
  mergeKeyValues store batch filters = Done s' delta →
  batch !! key = Some inc →
  store !! key = Some cur →
  value inc = None →
  ∃ cur', s' !! key = Some cur'
    ∧ value cur' = value cur ∧ version cur' = version cur
    ∧ originatorId cur' = originatorId cur ∧ hash cur' = hash cur
    ∧ ((cur' = cur ∧ delta !! key = None)
       ∨ (version inc = version cur ∧ originatorId inc = originatorId cur
          ∧ ttlVersion cur < ttlVersion inc
          ∧ ttl cur' = ttl inc ∧ ttlVersion cur' = ttlVersion inc
          ∧ delta !! key = Some inc)).
Proof.
  intros Hrun Hin Hcur Hnv.
  pose proof (mergeKeyValues_at _ _ _ _ _ _ _ Hrun Hin) as H. rewrite Hcur in H.
  rewrite entryDecision_ttl_only in H by done.
  destruct (bool_decide (passesGuards filters key inc)
            && (version inc =? version cur)
            && string_eq (originatorId inc) (originatorId cur)
            && (ttlVersion cur <? ttlVersion inc)) eqn:Hcond.
  - destruct H as [Hs Hd]. exists (refreshTtl cur inc).
    apply andb_prop in Hcond as [[[_ Hv]%andb_prop Ho]%andb_prop Ht].
    bool_to_prop. split_and!; [done..|]. right. done.
  - destruct H as [Hs Hd]. exists cur. split_and!; [done..|]. by left.
Qed.

(** C6. When for each key of the batch the store already holds a record with
    the same version, originatorId, value and ttlVersion, [mergeKeyValues]
    returns an empty delta and leaves the store unchanged. *)
Theorem mergeKeyValues_idempotent filters store batch :
  (∀ key inc, batch !! key = Some inc →
     ∃ cur, store !! key = Some cur
       ∧ version cur = version inc ∧ originatorId cur = originatorId inc
       ∧ value cur = value inc ∧ ttlVersion cur = ttlVersion inc) →
  mergeKeyValues store batch filters = Done store ∅.
Proof.
  intros Hsame. unfold mergeKeyValues, mergeKeyValuesIn.
  apply mergeLoop_all_keep. intros key inc Hin%elem_of_map_to_list.
  destruct (Hsame key inc Hin) as (cur & -> & Hv & Ho & Hval & Ht).
  destruct (decide (passesGuards filters key inc)) as [Hpass|Hnpass];
    [|by apply entryDecision_skipped].
  destruct (value inc) as [nv|] eqn:Hnv.
  - destruct (entryDecision_value filters key inc cur Hpass) as
      [[Hs _]|[(_ & Hr & _)|[(_ & _ & Hd)|(_ & _ & Hnone & _)]]];
      [by rewrite Hnv| | |done|congruence].
    + exfalso. destruct Hs as [?|[[_ Hgt]|(_ & _ & a & b & Ha & Hb & Hgt)]].
      * lia.
      * rewrite Ho in Hgt. by apply string_compare_gt_irrefl in Hgt.
      * rewrite Hnv in Ha. rewrite Hval in Hb. simplify_eq.
        by apply string_compare_gt_irrefl in Hgt.
    + exfalso. destruct Hr as (_ & _ & _ & ?). lia.
  - rewrite entryDecision_ttl_only by done.
    destruct (Z.ltb_spec (ttlVersion cur) (ttlVersion inc)); [lia|].
    by rewrite andb_false_r.
Qed.

(** C10 (amended). An incoming record with a value and version 0, for a key
    the store lacks, that passes the guards (filter and valid ttl) makes its
    iteration compare originatorIds through [kvStore.end()], so the call does
    not return. When every incoming record that carries a value has version at
    least 1, no iteration dereferences [kvStore.end()]; and if in addition
    every stored record carries a value, [mergeKeyValues] returns. *)
Theorem mergeKeyValues_version_precondition filters store batch :
  (∀ key inc,
     batch !! key = Some inc → store !! key = None →
     is_Some (value inc) → version inc = 0 → passesGuards filters key inc →
     (∀ kvUpdates, mergeKeyValue filters key inc store kvUpdates = Undefined)
     ∧ ∀ s' delta, mergeKeyValues store batch filters ≠ Done s' delta)
  ∧ (versionsStartAtOne batch →
     mergeKeyValues store batch filters ≠ Undefined
     ∧ (storeHasValues store →
        ∃ s' delta, mergeKeyValues store batch filters = Done s' delta)).
Proof.
  split.
  - intros key inc Hin Hnone Hval Hzero Hpass.
    assert (entryDecision filters key inc (store !! key) = Fail InvalidIterator) as Hd.
    { rewrite Hnone, entryDecision_absent by done. by rewrite Hzero. }
    split.
    + intros u. by rewrite mergeKeyValue_decision, Hd.
    + apply (mergeLoop_fails_on _ _ _ _ key inc InvalidIterator);
        [apply NoDup_fst_map_to_list | by apply elem_of_map_to_list | done].
  - intros Hpre. split.
    + apply mergeLoop_defined. intros key inc cur Hin%elem_of_map_to_list.
      by eapply versionsStartAtOne_defined.
    + intros Hwf. apply mergeLoop_returns; [apply NoDup_fst_map_to_list|].
      intros key inc [] Hin%elem_of_map_to_list.
      * by eapply versionsStartAtOne_defined.
      * intros (c & Hc & Hnone & _)%entryDecision_bad_field_access.
        destruct (Hwf key c Hc) as [? Hsome]. congruence.
Qed.

(** C8 (amended). Two visiting orders of the same batch (no key twice, one a
    permutation of the other), run on copies of a store: one run returns
    exactly when the other does, and then with the same final store (and the
    same delta). Nothing is said of the store a throwing run leaves behind. *)
Theorem mergeKeyValuesIn_order_independent filters store l1 l2 :
  NoDup l1.*1 →
  l1 ≡ₚ l2 →
  ∀ s' delta,
    mergeKeyValuesIn l1 store filters = Done s' delta
    ↔ mergeKeyValuesIn l2 store filters = Done s' delta.
Proof.
  intros Hnd Hperm s' delta. split.
  - by apply mergeKeyValuesIn_permutation.
  - apply mergeKeyValuesIn_permutation; [by rewrite <- Hperm | done].
Qed.

(** C5. Over any sequence of [mergeKeyValues] calls on a store, a key that
    holds a record keeps holding one, and its (version, originatorId) pair
    never decreases: version numerically first, then originatorId byte by
    byte. *)
Theorem no_downgrade_over_calls (s s' : gmap string Value) key cur :
  rtc callLeaves s s' →
  s !! key = Some cur →
  ∃ cur', s' !! key = Some cur' ∧ versionOriginatorLe cur cur'.
Proof.
  intros Hcalls. revert key cur.
  change (noDowngrade s s').
  induction Hcalls as [s|s1 s2 s3 Hcall _ IH].
  - apply noDowngrade_refl.
  - eapply noDowngrade_trans; [|exact IH]. by apply callLeaves_noDowngrade.
Qed.

End MergeClaims.

(** ** compareValues *)

Section CompareClaims.
Context `{P : Platform}.

(** Up to the value comparison the result is one of -1, 0, 1; the value
    comparison hands back whatever [std::string::compare] returns. *)
Lemma compareValues_before_values v1 v2 :
  version v1 ≠ version v2 ∨ originatorId v1 ≠ originatorId v2
  ∨ hashesEqual v1 v2 = true →
  compareValues v1 v2 = -1 ∨ compareValues v1 v2 = 0 ∨ compareValues v1 v2 = 1.
Proof.
  unfold compareValues. intros H.
  destruct (Z.eqb_spec (version v1) (version v2)); simpl.
  2:{ case_match; tauto. }
  destruct (string_eq (originatorId v1) (originatorId v2)) eqn:Ho; simpl.
  2:{ case_match; tauto. }
  apply string_eq_spec in Ho.
  destruct H as [?|[?|Hh]]; [done..|]. rewrite Hh.
  repeat case_match; tauto.
Qed.

Lemma compareValues_on_values v1 v2 a b :
  version v1 = version v2 → originatorId v1 = originatorId v2 →
  hashesEqual v1 v2 = false → value v1 = Some a → value v2 = Some b →
  compareValues v1 v2 = string_compare a b.
Proof.
  intros Hv Ho Hh Ha Hb. unfold compareValues.
  rewrite Hv, Z.eqb_refl, Ho. unfold string_eq. rewrite String.eqb_refl. simpl.
  by rewrite Hh, Ha, Hb.
Qed.

(** With a [compare] that is already normalised to -1, 0, 1 the result is one
    of -2, -1, 0, 1. *)
Lemma compareValues_range_when_normalised v1 v2 :
  (∀ a b, -1 ≤ string_compare a b ≤ 1) →
  -2 ≤ compareValues v1 v2 ≤ 1.
Proof.
  intros Hnorm. unfold compareValues.
  repeat case_match; try lia.
  match goal with |- _ ≤ string_compare ?a ?b ≤ _ => specialize (Hnorm a b) end.
  lia.
Qed.

End CompareClaims.

(** C2, at the records (v=1, orig="x", value="abc") and (v=1, orig="x",
    value="a"), no hashes: with libstdc++ [compareValues] returns the size
    difference, 2 one way and -2, the "unknown" code, the other way. *)
Theorem compareValues_returns_raw_compare :
  let v1 := Sample.rec 1 "x" (Some "abc"%string) 0 in
  let v2 := Sample.rec 1 "x" (Some "a"%string) 0 in
  compareValues v1 v2 = 2 ∧ compareValues v2 v1 = -2
  ∧ String.compare "abc" "a" = Gt.
Proof. vm_compute. done. Qed.

(** ** KvStoreFilters::keyMatch *)

Section FilterClaims.
Context `{P : Platform}.

Lemma RegexSet_match_spec f key :
  RegexSet_match (keyPrefixList_ f) key = true ↔ matchesSomePrefix f key.
Proof.
  unfold RegexSet_match, matchesSomePrefix. rewrite existsb_exists.
  by setoid_rewrite list_elem_of_In.
Qed.

Lemma is_empty_list_spec {A} (l : list A) : is_empty_list l = true ↔ l = [].
Proof. by destruct l. Qed.

(** C7. [keyMatch] returns true whenever the prefix list and the originator
    set are both empty; under OR (the spec's ANY) it returns true exactly when,
    besides that case, the key matches some prefix pattern or the record's
    originatorId is in the set; under AND (the spec's ALL) exactly when (the
    prefix list is empty or the key matches a pattern) and (the originator set
    is empty or the originatorId is in it). *)
Theorem keyMatch_spec f key v :
  (keyPrefixList_ f = [] → originatorIds_ f = ∅ → keyMatch f key v = true)
  ∧ (filterOperator_ f = OR →
     (keyMatch f key v = true
      ↔ (keyPrefixList_ f = [] ∧ originatorIds_ f = ∅)
        ∨ matchesSomePrefix f key ∨ originatorId v ∈ originatorIds_ f))
  ∧ (filterOperator_ f = AND →
     (keyMatch f key v = true
      ↔ (keyPrefixList_ f = [] ∨ matchesSomePrefix f key)
        ∧ (originatorIds_ f = ∅ ∨ originatorId v ∈ originatorIds_ f))).
Proof.
  unfold keyMatch, keyMatchAny, keyMatchAll, set_empty, set_count.
  assert (matchesSomePrefix f key → keyPrefixList_ f ≠ []) as Hne.
  { intros (p & Hin & _) Heq. rewrite Heq in Hin. by apply elem_of_nil in Hin. }
  assert (originatorIds_ f = ∅ → originatorId v ∉ originatorIds_ f) as Hno.
  { intros ->. apply not_elem_of_empty. }
  split_and!.
  - intros -> ->. by destruct (filterOperator_ f).
  - intros ->.
    destruct (is_empty_list (keyPrefixList_ f)) eqn:El;
      [apply is_empty_list_spec in El
      |apply not_true_iff_false in El; rewrite is_empty_list_spec in El];
    (destruct (RegexSet_match (keyPrefixList_ f) key) eqn:Em;
      [apply RegexSet_match_spec in Em
      |apply not_true_iff_false in Em; rewrite RegexSet_match_spec in Em]);
    repeat case_bool_decide; simpl; intuition (try done; try congruence).
  - intros ->.
    destruct (is_empty_list (keyPrefixList_ f)) eqn:El;
      [apply is_empty_list_spec in El
      |apply not_true_iff_false in El; rewrite is_empty_list_spec in El];
    (destruct (RegexSet_match (keyPrefixList_ f) key) eqn:Em;
      [apply RegexSet_match_spec in Em
      |apply not_true_iff_false in Em; rewrite RegexSet_match_spec in Em]);
    repeat case_bool_decide; simpl; intuition (try done; try congruence).
Qed.

End FilterClaims.

(** ** dumpDifference *)

Section DumpClaims.
Context `{P : Platform}.

Lemma dumpKey_spec mine theirs key kvs tobe :
  kvs !! key = None →
  dumpKey mine theirs key (kvs, tobe)
  = (match sends mine theirs key with Some v => <[key := v]> kvs | None => kvs end,
     if wants mine theirs key then tobe ++ [key] else tobe).
Proof.
  intros Hfresh. unfold dumpKey, sends, wants, emplace. rewrite Hfresh.
  destruct (mine !! key); [|done]. destruct (theirs !! key); [|done].
  by repeat case_match.
Qed.

Lemma dumpFold_spec mine theirs keys kvs0 tobe0 :
  NoDup keys →
  (∀ k, k ∈ keys → kvs0 !! k = None) →
  ∀ kvs tobe,
    foldl (λ acc key, dumpKey mine theirs key acc) (kvs0, tobe0) keys = (kvs, tobe) →
    ∀ k, kvs !! k = (if decide (k ∈ keys) then sends mine theirs k else kvs0 !! k)
         ∧ (k ∈ tobe ↔ k ∈ tobe0 ∨ (k ∈ keys ∧ wants mine theirs k = true)).
Proof.
  revert kvs0 tobe0.
  induction keys as [|k0 rest IH]; intros kvs0 tobe0 Hnd Hfresh kvs tobe Hrun k;
    cbn [foldl] in Hrun.
  - injection Hrun as <- <-. rewrite decide_False by apply not_elem_of_nil.
    split; [done|]. split; [by left|]. intros [?|[[]%elem_of_nil _]]. done.
  - apply NoDup_cons in Hnd as [Hk0 Hnd].
    rewrite dumpKey_spec in Hrun by (apply Hfresh; by left).
    eapply (IH _ _ Hnd) in Hrun as [Hkvs Htobe].
    2:{ intros k' Hin. assert (k' ≠ k0) by (by intros ->).
        destruct (sends mine theirs k0); [rewrite lookup_insert_ne by done|];
          apply Hfresh; by right. }
    split.
    + rewrite Hkvs. destruct (decide (k = k0)) as [->|Hne].
      * rewrite decide_False by done. rewrite decide_True by (by left).
        destruct (sends mine theirs k0); [by rewrite lookup_insert_eq|].
        apply Hfresh. by left.
      * destruct (decide (k ∈ rest)) as [Hin|Hout].
        -- by rewrite decide_True by (by right).
        -- rewrite decide_False by (by intros [?|?]%elem_of_cons).
           destruct (sends mine theirs k0); [by rewrite lookup_insert_ne|done].
    + rewrite Htobe. rewrite elem_of_cons.
      destruct (wants mine theirs k0) eqn:Hw.
      * rewrite elem_of_app, list_elem_of_singleton. split.
        -- intros [[?| ->]|[? ?]]; [by left|right..]; split; auto.
        -- intros [?|[[ ->|?] ?]]; [left; by left|left; by right|by right].
      * split.
        -- intros [?|[? ?]]; [by left|right; split; auto].
        -- intros [?|[[ ->|?] ?]]; [by left|congruence|by right].
Qed.

(** C3. [dumpDifference(area, mine, theirs)], key by key: a key only in
    [mine] goes into [keyVals] (with mine's record) and not into
    [tobeUpdatedKeys]; a key only in [theirs] goes into [tobeUpdatedKeys] and
    not into [keyVals]; a key in both, with [c = compareValues(mine[key],
    theirs[key])], goes into [keyVals] only when [c = 1], into
    [tobeUpdatedKeys] only when [c = -1], into neither when [c = 0], into both
    when [c = -2], and for no other [c] into either. *)
Theorem dumpDifference_spec a mine theirs :
  ∃ tobe,
    area (dumpDifference a mine theirs) = a
    ∧ tobeUpdatedKeys (dumpDifference a mine theirs) = Some tobe
    ∧ ∀ key,
      let sent := keyVals (dumpDifference a mine theirs) !! key in
      match mine !! key, theirs !! key with
      | Some m, None => sent = Some m ∧ key ∉ tobe
      | None, Some _ => sent = None ∧ key ∈ tobe
      | None, None => sent = None ∧ key ∉ tobe
      | Some m, Some t =>
        let c := compareValues m t in
        (c = 1 → sent = Some m ∧ key ∉ tobe)
        ∧ (c = -1 → sent = None ∧ key ∈ tobe)
        ∧ (c = 0 → sent = None ∧ key ∉ tobe)
        ∧ (c = -2 → sent = Some m ∧ key ∈ tobe)
        ∧ (sent = Some m ∨ sent = None)
        ∧ (sent = Some m ↔ c = 1 ∨ c = -2)
        ∧ (key ∈ tobe ↔ c = -1 ∨ c = -2)
      end.
Proof.
  unfold dumpDifference, dumpDifferenceIn.
  destruct (foldl _ _ _) as [kvs tobe] eqn:Hrun.
  exists tobe. split_and!; [done..|]. intros key. simpl.
  pose proof (dumpFold_spec mine theirs _ ∅ [] (NoDup_elements _)
                (λ k _, lookup_empty k) kvs tobe Hrun key) as [Hkvs Htobe].
  assert (key ∈ elements (dom mine ∪ dom theirs)
          ↔ is_Some (mine !! key) ∨ is_Some (theirs !! key)) as Hin.
  { by rewrite elem_of_elements, elem_of_union, !elem_of_dom. }
  assert (key ∉ @nil string) as Hnil by apply not_elem_of_nil.
  unfold sends, wants in Hkvs, Htobe.
  destruct (mine !! key) as [m|] eqn:Hm, (theirs !! key) as [t|] eqn:Ht;
    rewrite ?Hkvs, ?Htobe; clear Hkvs Htobe;
    try rewrite decide_True by (apply Hin; eauto).
  - assert (key ∈ elements (dom mine ∪ dom theirs)) as Hk by (apply Hin; eauto).
    simpl.
    destruct (Z.eqb_spec (compareValues m t) 1),
      (Z.eqb_spec (compareValues m t) (-1)),
      (Z.eqb_spec (compareValues m t) (-2)),
      (Z.eqb_spec (compareValues m t) 0); simpl; try lia;
      intuition (try done; try lia).
  - intuition done.
  - split; [done|]. right. split; [apply Hin; eauto|done].
  - rewrite decide_False.
    2:{ rewrite Hin. intros [[? ?]|[? ?]]; done. }
    split; [apply lookup_empty|]. intuition done.
Qed.

End DumpClaims.

(** ** Configuration: the flood-rate check *)

Section ConfigClaims.
Import Config.

(** C9. For a configuration that is valid otherwise, a kvstore flood rate
    with [flood_msg_per_sec ≤ 0] or [flood_msg_burst_size ≤ 0] makes the
    constructor throw [std::out_of_range]: no [Config] is produced. *)
Theorem construct_rejects_flood_rate otherChecks c fr :
  otherChecks c = None →
  flood_rate (kvstore_config c) = Some fr →
  flood_msg_per_sec fr ≤ 0 ∨ flood_msg_burst_size fr ≤ 0 →
  construct otherChecks c = inl out_of_range
  ∧ ∀ cfg, construct otherChecks c ≠ inr cfg.
Proof.
  intros Hother Hfr Hbad.
  assert (construct otherChecks c = inl out_of_range) as Hc.
  { unfold construct, checkKvStoreConfig. rewrite Hother, Hfr.
    destruct (Z.leb_spec (flood_msg_per_sec fr) 0); [done|].
    destruct (Z.leb_spec (flood_msg_burst_size fr) 0); [done|]. lia. }
  split; [done|]. intros cfg. by rewrite Hc.
Qed.

(** The two configurations of the test. *)
Lemma construct_rejects_flood_rate_witness :
  construct (λ _, None) confInvalidFloodMsgPerSec = inl out_of_range
  ∧ construct (λ _, None) confInvalidFloodMsgBurstSize = inl out_of_range.
Proof.
  split.
  - apply (construct_rejects_flood_rate (λ _, None) confInvalidFloodMsgPerSec
             (mkFloodRate 0 1)); [reflexivity | reflexivity | left; simpl; lia].
  - apply (construct_rejects_flood_rate (λ _, None) confInvalidFloodMsgBurstSize
             (mkFloodRate 1 0)); [reflexivity | reflexivity | right; simpl; lia].
Defined.

End ConfigClaims.

(** ** The claims on concrete stores and batches (libstdc++ platform) *)

Section Scenarios.
Local Open Scope string_scope.
Import Sample.

(** C1 as stated fails: an incoming record with a value and a higher version
    (2 against 1) whose ttl is 0 does not replace the stored record; the call
    returns the store unchanged and an empty delta. *)
Lemma newer_version_with_invalid_ttl_is_kept_out :
  storeA !! "a" = Some a_v1_x_A
  ∧ is_Some (value a_v2_x_B_ttl0)
  ∧ version a_v1_x_A < version a_v2_x_B_ttl0
  ∧ supersedes a_v2_x_B_ttl0 a_v1_x_A
  ∧ mergeKeyValues storeA {[ "a" := a_v2_x_B_ttl0 ]} None = Done storeA ∅.
Proof.
  split_and!; [done | by eexists | done | by left | by vm_compute].
Qed.

(** S3 of the spec: originator tie-break. *)
Lemma mergeKeyValues_resolves_key_witness :
  let s' : gmap string Value := {[ "a" := fillHash a_v1_y_B ]} in
  let delta : gmap string Value := {[ "a" := a_v1_y_B ]} in
  mergeKeyValues storeA {[ "a" := a_v1_y_B ]} None = Done s' delta
  ∧ passesGuards None "a" a_v1_y_B ∧ supersedes a_v1_y_B a_v1_x_A
  ∧ s' !! "a" = Some (fillHash a_v1_y_B) ∧ delta !! "a" = Some a_v1_y_B.
Proof.
  intros s' delta.
  assert (mergeKeyValues storeA {[ "a" := a_v1_y_B ]} None = Done s' delta) as Hrun
    by (vm_compute; reflexivity).
  assert (supersedes a_v1_y_B a_v1_x_A) as Hsup
    by (right; left; split; reflexivity).
  assert (passesGuards None "a" a_v1_y_B) as Hpass by (split; reflexivity).
  split; [exact Hrun|].
  destruct (mergeKeyValues_resolves_key None storeA {[ "a" := a_v1_y_B ]} s' delta
              "a" a_v1_y_B a_v1_x_A Hrun eq_refl eq_refl (ex_intro _ _ eq_refl))
    as [H|[(_ & Hns & _)|[[Hna|[Hns _]] _]]].
  - exact H.
  - destruct (Hns Hsup).
  - destruct (Hna Hpass).
  - destruct (Hns Hsup).
Defined.

(** S5 of the spec: ttl refresh. *)
Lemma mergeKeyValues_ttl_only_frame_witness :
  let store : gmap string Value := {[ "a" := a_v1_x_A_ttlv3 ]} in
  let s' : gmap string Value := {[ "a" := refreshTtl a_v1_x_A_ttlv3 refresh_v1_x_ttlv4 ]} in
  let delta : gmap string Value := {[ "a" := refresh_v1_x_ttlv4 ]} in
  mergeKeyValues store {[ "a" := refresh_v1_x_ttlv4 ]} None = Done s' delta
  ∧ ∃ cur', s' !! "a" = Some cur'
      ∧ value cur' = Some "A" ∧ version cur' = 1
      ∧ originatorId cur' = "x" ∧ hash cur' = None
      ∧ ((cur' = a_v1_x_A_ttlv3 ∧ delta !! "a" = None)
         ∨ (version refresh_v1_x_ttlv4 = version a_v1_x_A_ttlv3
            ∧ originatorId refresh_v1_x_ttlv4 = originatorId a_v1_x_A_ttlv3
            ∧ ttlVersion a_v1_x_A_ttlv3 < ttlVersion refresh_v1_x_ttlv4
            ∧ ttl cur' = ttl refresh_v1_x_ttlv4
            ∧ ttlVersion cur' = ttlVersion refresh_v1_x_ttlv4
            ∧ delta !! "a" = Some refresh_v1_x_ttlv4)).
Proof.
  intros store s' delta.
  assert (mergeKeyValues store {[ "a" := refresh_v1_x_ttlv4 ]} None = Done s' delta)
    as Hrun by (vm_compute; reflexivity).
  split; [exact Hrun|].
  apply (mergeKeyValues_ttl_only_frame None store {[ "a" := refresh_v1_x_ttlv4 ]}
           s' delta "a" refresh_v1_x_ttlv4 a_v1_x_A_ttlv3 Hrun);
    reflexivity.
Defined.

(** Merging what the store already holds. *)
Lemma mergeKeyValues_idempotent_witness :
  mergeKeyValues storeA storeA None = Done storeA ∅.
Proof.
  apply (mergeKeyValues_idempotent None storeA storeA).
  intros key inc Hin. unfold storeA in Hin.
  apply lookup_singleton_Some in Hin as [<- <-].
  exists a_v1_x_A. split_and!; reflexivity.
Defined.

(** C10 as stated fails twice. A record with a value and version 0 for a key
    the store lacks, but with ttl 0, is skipped before any iterator is
    dereferenced, and the call returns. And with every incoming version at
    least 1, a stored record without a value makes the call throw when an
    incoming record with the same version and originatorId carries a value. *)
Lemma version_zero_not_always_fatal_nor_precondition_enough :
  ((∅ : gmap string Value) !! "a" = None
   ∧ is_Some (value a_v0_x_A_ttl0) ∧ version a_v0_x_A_ttl0 = 0
   ∧ mergeKeyValues ∅ {[ "a" := a_v0_x_A_ttl0 ]} None = Done ∅ ∅)
  ∧ (versionsStartAtOne {[ "a" := a_v1_x_A ]}
     ∧ mergeKeyValues {[ "a" := a_v1_x_novalue ]} {[ "a" := a_v1_x_A ]} None
       = Thrown {[ "a" := a_v1_x_novalue ]}).
Proof.
  split_and!; [done | by eexists | done | by vm_compute | | by vm_compute].
  intros key inc [<- <-]%lookup_singleton_Some _. done.
Qed.

(** Version 0 for a new key with a valid ttl is undefined; S1 of the spec
    (version 1 into an empty store) returns. *)
Lemma mergeKeyValues_version_precondition_witness :
  (mergeKeyValue None "a" a_v0_x_A ∅ ∅ = Undefined
   ∧ ∀ s' delta, mergeKeyValues ∅ {[ "a" := a_v0_x_A ]} None ≠ Done s' delta)
  ∧ (mergeKeyValues ∅ storeA None ≠ Undefined
     ∧ ∃ s' delta, mergeKeyValues ∅ storeA None = Done s' delta).
Proof.
  split.
  - destruct (mergeKeyValues_version_precondition None ∅ {[ "a" := a_v0_x_A ]})
      as [Hzero _].
    destruct (Hzero "a" a_v0_x_A) as [Hiter Hcall];
      [reflexivity | reflexivity | by eexists | reflexivity | split; reflexivity |].
    split; [apply Hiter | exact Hcall].
  - destruct (mergeKeyValues_version_precondition None ∅ storeA) as [_ Hpre].
    destruct Hpre as [Hdef Hret].
    { intros key inc Hin _. unfold storeA in Hin.
      apply lookup_singleton_Some in Hin as [_ <-]. simpl. lia. }
    split; [exact Hdef|]. apply Hret.
    intros key cur Hin. by rewrite lookup_empty in Hin.
Defined.

(** Two visiting orders of the batch {a, c}. *)
Lemma mergeKeyValuesIn_order_independent_witness :
  let l1 := [("a", a_v1_y_B); ("c", c_v1_z_C)] in
  let l2 := [("c", c_v1_z_C); ("a", a_v1_y_B)] in
  let s' : gmap string Value :=
    {[ "a" := fillHash a_v1_y_B; "c" := fillHash c_v1_z_C ]} in
  let delta : gmap string Value := {[ "a" := a_v1_y_B; "c" := c_v1_z_C ]} in
  NoDup l1.*1 ∧ l1 ≡ₚ l2
  ∧ mergeKeyValuesIn l1 storeA None = Done s' delta
  ∧ mergeKeyValuesIn l2 storeA None = Done s' delta.
Proof.
  intros l1 l2 s' delta.
  assert (NoDup l1.*1) as Hnd.
  { simpl. apply NoDup_cons. split; [|apply NoDup_singleton].
    intros Hin%list_elem_of_singleton. discriminate Hin. }
  assert (l1 ≡ₚ l2) as Hperm by apply perm_swap.
  assert (mergeKeyValuesIn l1 storeA None = Done s' delta) as Hrun
    by (vm_compute; reflexivity).
  split_and!; [exact Hnd | exact Hperm | exact Hrun |].
  apply (mergeKeyValuesIn_order_independent None storeA l1 l2 Hnd Hperm s' delta).
  exact Hrun.
Defined.

(** One call that replaces ("a", v1, "x") by ("a", v1, "y"). *)
Lemma no_downgrade_over_calls_witness :
  let s' : gmap string Value := {[ "a" := fillHash a_v1_y_B ]} in
  rtc callLeaves storeA s'
  ∧ ∃ cur', s' !! "a" = Some cur' ∧ versionOriginatorLe a_v1_x_A cur'.
Proof.
  intros s'.
  assert (rtc callLeaves storeA s') as Hcalls.
  { apply rtc_once.
    exists {[ "a" := a_v1_y_B ]}, (map_to_list {[ "a" := a_v1_y_B ]}), None.
    split; [reflexivity|]. left. exists {[ "a" := a_v1_y_B ]}.
    vm_compute. reflexivity. }
  split; [exact Hcalls|].
  apply (no_downgrade_over_calls storeA s' "a" a_v1_x_A Hcalls). reflexivity.
Defined.

(** A leaf-node style filter: one prefix, one originator, OR. *)
Lemma keyMatch_spec_witness :
  let f := mkKvStoreFilters ["prefix:"] {[ "x" ]} OR in
  keyMatch f "adj:node1" a_v1_x_A = true
  ↔ (keyPrefixList_ f = [] ∧ originatorIds_ f = ∅)
    ∨ matchesSomePrefix f "adj:node1" ∨ originatorId a_v1_x_A ∈ originatorIds_ f.
Proof.
  intros f.
  destruct (keyMatch_spec f "adj:node1" a_v1_x_A) as (_ & Hor & _).
  apply Hor. reflexivity.
Defined.

(** S6 of the spec: A = {a:v2/X, b:v1/Y}, B = {a:v1/X, c:v1/Z}. *)
Lemma dumpDifference_spec_witness :
  let A : gmap string Value :=
    {[ "a" := rec 2 "X" (Some "1") 0; "b" := rec 1 "Y" (Some "2") 0 ]} in
  let B : gmap string Value :=
    {[ "a" := rec 1 "X" (Some "1") 0; "c" := rec 1 "Z" (Some "3") 0 ]} in
  ∃ tobe,
    tobeUpdatedKeys (dumpDifference "0" A B) = Some tobe
    ∧ keyVals (dumpDifference "0" A B) !! "a" = Some (rec 2 "X" (Some "1") 0)
    ∧ ("a" ∉ tobe)
    ∧ keyVals (dumpDifference "0" A B) !! "b" = Some (rec 1 "Y" (Some "2") 0)
    ∧ ("b" ∉ tobe)
    ∧ keyVals (dumpDifference "0" A B) !! "c" = None
    ∧ "c" ∈ tobe.
Proof.
  intros A B.
  destruct (dumpDifference_spec "0" A B) as (tobe & _ & Htobe & Hkeys).
  exists tobe. split; [exact Htobe|].
  pose proof (Hkeys "a") as Ha. pose proof (Hkeys "b") as Hb.
  pose proof (Hkeys "c") as Hc.
  change (A !! "a") with (Some (rec 2 "X" (Some "1") 0)) in Ha.
  change (B !! "a") with (Some (rec 1 "X" (Some "1") 0)) in Ha.
  change (A !! "b") with (Some (rec 1 "Y" (Some "2") 0)) in Hb.
  change (B !! "b") with (@None Value) in Hb.
  change (A !! "c") with (@None Value) in Hc.
  change (B !! "c") with (Some (rec 1 "Z" (Some "3") 0)) in Hc.
  simpl in Ha, Hb, Hc.
  destruct Ha as (Ha & _). destruct (Ha eq_refl) as [Ha1 Ha2].
  destruct Hb as [Hb1 Hb2]. destruct Hc as [Hc1 Hc2].
  split_and!; assumption.
Defined.

(** *** The scenarios of the spec *)

(** S1, basic set: the record is stored (with its hash) and announced. *)
Example scenario_basic_set :
  mergeKeyValues ∅ {[ "a" := a_v1_x_A ]} None
  = Done {[ "a" := fillHash a_v1_x_A ]} {[ "a" := a_v1_x_A ]}.
Proof. vm_compute. reflexivity. Qed.

(** S2, stale ignored: version 0 against the stored version 1. *)
Example scenario_stale_ignored :
  mergeKeyValues storeA {[ "a" := a_v0_x_A ]} None = Done storeA ∅.
Proof. vm_compute. reflexivity. Qed.

(** S4, value tie-break: "AB" replaces "AA", and "AA" does not come back. *)
Example scenario_value_tie_break :
  let aa := rec 1 "x" (Some "AA") 0 in
  let ab := rec 1 "x" (Some "AB") 0 in
  mergeKeyValues {[ "a" := aa ]} {[ "a" := ab ]} None
    = Done {[ "a" := fillHash ab ]} {[ "a" := ab ]}
  ∧ mergeKeyValues {[ "a" := fillHash ab ]} {[ "a" := aa ]} None
    = Done {[ "a" := fillHash ab ]} ∅.
Proof. vm_compute. done. Qed.

(** What the raw result of [compare] does to the diff: with values "abc" and
    "a" the comparison yields 2, and the key is neither sent nor asked for. *)
Example dumpDifference_skips_key_on_raw_compare :
  let mine : gmap string Value := {[ "a" := rec 1 "x" (Some "abc") 0 ]} in
  let theirs : gmap string Value := {[ "a" := rec 1 "x" (Some "a") 0 ]} in
  keyVals (dumpDifference "0" mine theirs) = ∅
  ∧ tobeUpdatedKeys (dumpDifference "0" mine theirs) = Some [].
Proof. vm_compute. done. Qed.

End Scenarios.

(** * Further properties of the merge engine *)

Section MergeMore.
Context `{P : Platform}.

(** What a write of the loop body looks like. *)
Lemma entryDecision_put_inv filters key inc cur v :
  entryDecision filters key inc cur = Put v →
  passesGuards filters key inc
  ∧ ((is_Some (value inc) ∧ v = fillHash inc
      ∧ match cur with
        | None => 0 < version inc
        | Some c => supersedes inc c
        end)
     ∨ (∃ c, cur = Some c ∧ v = refreshTtl c inc
          ∧ version inc = version c ∧ originatorId inc = originatorId c
          ∧ ttlVersion c < ttlVersion inc
          ∧ (value inc = None ∨ value inc = value c))).
Proof.
  intros Hd.
  destruct (decide (passesGuards filters key inc)) as [Hpass|Hnpass];
    [|by rewrite entryDecision_skipped in Hd].
  split; [done|].
  destruct (value inc) as [nv|] eqn:Hnv.
  - assert (is_Some (value inc)) as Hval by (by rewrite Hnv).
    destruct cur as [c|].
    + destruct (entryDecision_value filters key inc c Hpass Hval) as
        [[Hs Hd']|[(_ & Hr & Hd')|[(_ & _ & Hd')|(_ & _ & _ & Hd')]]];
        rewrite Hd' in Hd; simplify_eq.
      * left. split_and!; eauto.
      * right. destruct Hr as (? & ? & ? & ?). exists c.
        split_and!; try done. right. congruence.
    + rewrite entryDecision_absent in Hd by done.
      destruct (Z.ltb_spec 0 (version inc)); [|by case_match].
      simplify_eq. left. split_and!; eauto.
  - rewrite entryDecision_ttl_only in Hd by done.
    destruct cur as [c|]; [|done].
    destruct (bool_decide (passesGuards filters key inc)
              && (version inc =? version c)
              && string_eq (originatorId inc) (originatorId c)
              && (ttlVersion c <? ttlVersion inc)) eqn:Hcond; [|done].
    apply andb_prop in Hcond as [[[_ Hv]%andb_prop Ho]%andb_prop Ht].
    bool_to_prop. simplify_eq. right. exists c. split_and!; try done. by left.
Qed.

(** When the loop body fails, and how. *)
Lemma entryDecision_fail_iff filters key inc cur :
  (∃ e, entryDecision filters key inc cur = Fail e)
  ↔ entryFaults filters key inc cur.
Proof.
  unfold entryFaults. split.
  - intros [[] Hd].
    + apply entryDecision_invalid_iterator in Hd as (-> & ? & ? & ?). done.
    + assert (passesGuards filters key inc) as Hpass.
      { destruct (decide (passesGuards filters key inc)); [done|].
        by rewrite entryDecision_skipped in Hd. }
      apply entryDecision_bad_field_access in Hd as (c & -> & ? & ? & ? & ?).
      done.
  - intros (Hpass & Hval & Hcur). destruct cur as [c|].
    + destruct Hcur as (Hv & Ho & Hnone).
      destruct (entryDecision_value filters key inc c Hpass Hval) as
        [[Hs _]|[(_ & Hr & _)|[(_ & Hnr & Hd)|(_ & _ & _ & Hd)]]]; [| | |eauto].
      * exfalso. destruct Hs as [?|[[_ Hgt]|(_ & _ & a & b & _ & Hb & _)]];
          [lia| |congruence].
        rewrite Ho in Hgt. by apply string_compare_gt_irrefl in Hgt.
      * exfalso. destruct Hr as (_ & _ & Heq & _). destruct Hval. congruence.
      * exfalso. (* value present against none: the comparison is reached *)
        unfold entryDecision in Hd. destruct Hpass as [Hf Ht].
        rewrite Hf, Ht in Hd. simpl in Hd.
        destruct (Z.ltb_spec (version inc) (version c)); [lia|].
        unfold checkUpdateAll in Hd. destruct Hval as [nv Hnv].
        rewrite Hnv in Hd. simpl in Hd.
        destruct (Z.ltb_spec (version c) (version inc)); [lia|].
        rewrite Ho in Hd.
        assert (string_gt (originatorId c) (originatorId c) = false) as Hgt.
        { apply not_true_iff_false. rewrite string_gt_spec.
          apply string_compare_gt_irrefl. }
        rewrite Hgt in Hd. unfold string_eq in Hd.
        rewrite String.eqb_refl, Hnone in Hd. done.
    + exists InvalidIterator. rewrite entryDecision_absent by done.
      rewrite Hcur. done.
Qed.

(** Everything a returning call did, key by key. *)
Lemma mergeKeyValues_lookup filters store batch s' delta key :
  mergeKeyValues store batch filters = Done s' delta →
  match batch !! key with
  | None => s' !! key = store !! key ∧ delta !! key = None
  | Some inc =>
    match entryDecision filters key inc (store !! key) with
    | Keep => s' !! key = store !! key ∧ delta !! key = None
    | Put v => s' !! key = Some v ∧ delta !! key = Some inc
    | Fail _ => False
    end
  end.
Proof.
  intros Hrun. destruct (batch !! key) as [inc|] eqn:Hin.
  - exact (mergeKeyValues_at _ _ _ _ _ _ _ Hrun Hin).
  - exact (mergeKeyValues_other _ _ _ _ _ _ Hrun Hin).
Qed.

End MergeMore.

Section MergeExtras.
Context `{P : Platform}.

Lemma fillHash_fields inc :
  version (fillHash inc) = version inc
  ∧ originatorId (fillHash inc) = originatorId inc
  ∧ value (fillHash inc) = value inc
  ∧ ttl (fillHash inc) = ttl inc
  ∧ ttlVersion (fillHash inc) = ttlVersion inc.
Proof. unfold fillHash. by destruct (hash inc). Qed.

Lemma supersedes_irrefl_fields a b :
  version a = version b → originatorId a = originatorId b → value a = value b →
  ¬ supersedes a b.
Proof.
  intros Hv Ho Hval [?|[[_ Hgt]|(_ & _ & x & y & Hx & Hy & Hgt)]].
  - lia.
  - rewrite Ho in Hgt. by apply string_compare_gt_irrefl in Hgt.
  - rewrite Hval, Hy in Hx. simplify_eq. by apply string_compare_gt_irrefl in Hgt.
Qed.

Lemma supersedes_fillHash inc cur :
  supersedes inc cur → supersedes (fillHash inc) cur.
Proof.
  unfold supersedes.
  destruct (fillHash_fields inc) as (-> & -> & -> & _). done.
Qed.

(** X1. The delta a returning call hands back holds only entries of the
    batch, as they came in, and only entries that passed the filter and the
    ttl check. *)
Theorem delta_within_batch filters store batch s' delta :
  mergeKeyValues store batch filters = Done s' delta →
  delta ⊆ batch
  ∧ ∀ key inc, delta !! key = Some inc → passesGuards filters key inc.
Proof.
  intros Hrun.
  assert (∀ key inc, delta !! key = Some inc →
            batch !! key = Some inc ∧ passesGuards filters key inc) as H.
  { intros key inc Hd.
    pose proof (mergeKeyValues_lookup _ _ _ _ _ key Hrun) as Hk.
    destruct (batch !! key) as [inc'|]; [|destruct Hk; congruence].
    destruct (entryDecision filters key inc' (store !! key)) as [|v|] eqn:He;
      [destruct Hk; congruence| |done].
    destruct Hk as [_ Hk]. simplify_eq.
    apply entryDecision_put_inv in He as [? _]. done. }
  split.
  - apply map_subseteq_spec. intros key inc Hd. by apply H.
  - intros key inc Hd. by apply H.
Qed.

(** X2. A returning call never removes a key: the keys of the store
    afterwards are the keys it had plus the keys of the delta. *)
Theorem store_keys_grow_by_delta filters store batch s' delta :
  mergeKeyValues store batch filters = Done s' delta →
  dom s' = dom store ∪ dom delta.
Proof.
  intros Hrun. apply set_eq. intros key.
  rewrite elem_of_union, !elem_of_dom.
  pose proof (mergeKeyValues_lookup _ _ _ _ _ key Hrun) as Hk.
  destruct (batch !! key) as [inc|].
  - destruct (entryDecision filters key inc (store !! key)) as [|v|]; [| |done];
      destruct Hk as [-> ->].
    + split; [by left|]. intros [?|[? ?]]; done.
    + split; [right|]; eauto.
  - destruct Hk as [-> ->]. split; [by left|]. intros [?|[? ?]]; done.
Qed.

(** X3. The delta names exactly the keys whose stored record the call
    changed (or created). *)
Theorem delta_is_what_changed filters store batch s' delta key :
  mergeKeyValues store batch filters = Done s' delta →
  is_Some (delta !! key) ↔ s' !! key ≠ store !! key.
Proof.
  intros Hrun.
  pose proof (mergeKeyValues_lookup _ _ _ _ _ key Hrun) as Hk.
  destruct (batch !! key) as [inc|].
  2:{ destruct Hk as [-> ->]. split; [by intros [? ?]|done]. }
  destruct (entryDecision filters key inc (store !! key)) as [|v|] eqn:He;
    [| |done]; destruct Hk as [-> ->].
  { split; [by intros [? ?]|done]. }
  split; [intros _|eauto]. intros Heq.
  apply entryDecision_put_inv in He as [_ [(_ & -> & Hcur)|(c & Hc & -> & _ & _ & Hlt & _)]].
  - rewrite <- Heq in Hcur.
    destruct (fillHash_fields inc) as (Hv & Ho & Hval & _).
    eapply supersedes_irrefl_fields; [..|exact Hcur]; done.
  - rewrite Hc in Heq. injection Heq as Heq.
    apply (f_equal ttlVersion) in Heq. simpl in Heq. lia.
Qed.

(** X4. Every update a returning call announces moves the stored record
    strictly ahead: the new record wins over the old one on version,
    originatorId or value, or ties on these with a larger ttlVersion. *)
Theorem announced_update_is_newer filters store batch s' delta key cur :
  mergeKeyValues store batch filters = Done s' delta →
  store !! key = Some cur →
  is_Some (delta !! key) →
  ∃ cur', s' !! key = Some cur' ∧ newer cur' cur.
Proof.
  intros Hrun Hcur Hd.
  pose proof (mergeKeyValues_lookup _ _ _ _ _ key Hrun) as Hk.
  destruct (batch !! key) as [inc|]; [|destruct Hk as [_ Hk]; rewrite Hk in Hd; by destruct Hd].
  rewrite Hcur in Hk.
  destruct (entryDecision filters key inc (Some cur)) as [|v|] eqn:He;
    [destruct Hk as [_ Hk]; rewrite Hk in Hd; by destruct Hd| |done].
  destruct Hk as [Hs _]. exists v. split; [done|].
  apply entryDecision_put_inv in He as [_ [(_ & -> & Hsup)|(c & Hc & -> & Hv & Ho & Hlt & _)]].
  - left. by apply supersedes_fillHash.
  - simplify_eq. right. done.
Qed.

(** X5. If every stored ttl is [kTtlInfinity] or positive before a call, it
    is so after the call returns. *)
Theorem ttls_stay_valid filters store batch s' delta :
  storeTtlsValid store →
  mergeKeyValues store batch filters = Done s' delta →
  storeTtlsValid s'.
Proof.
  intros Hok Hrun key cur' Hcur'.
  pose proof (mergeKeyValues_lookup _ _ _ _ _ key Hrun) as Hk.
  destruct (batch !! key) as [inc|].
  2:{ destruct Hk as [Hs _]. rewrite Hs in Hcur'. by eapply Hok. }
  destruct (entryDecision filters key inc (store !! key)) as [|v|] eqn:He;
    [| |done]; destruct Hk as [Hs _]; rewrite Hs in Hcur'.
  { by eapply Hok. }
  simplify_eq.
  apply entryDecision_put_inv in He as [[_ Ht] [(_ & -> & _)|(c & _ & -> & _)]].
  - unfold ttlInvalid in *. by destruct (fillHash_fields inc) as (_ & _ & _ & -> & _).
  - exact Ht.
Qed.

(** X7. If every stored record has its hash, and the right one, and the
    hashes that come with the batch are right, then after the call returns
    every stored record still has its hash, and the right one. *)
Theorem hashes_stay_consistent filters store batch s' delta :
  storeHashed store →
  (∀ key inc, batch !! key = Some inc → hashConsistent inc) →
  mergeKeyValues store batch filters = Done s' delta →
  storeHashed s'.
Proof.
  intros Hok Hbatch Hrun key cur' Hcur'.
  pose proof (mergeKeyValues_lookup _ _ _ _ _ key Hrun) as Hk.
  destruct (batch !! key) as [inc|] eqn:Hin.
  2:{ destruct Hk as [Hs _]. rewrite Hs in Hcur'. by eapply Hok. }
  destruct (entryDecision filters key inc (store !! key)) as [|v|] eqn:He;
    [| |done]; destruct Hk as [Hs _]; rewrite Hs in Hcur'.
  { by eapply Hok. }
  simplify_eq.
  apply entryDecision_put_inv in He as [_ [(_ & -> & _)|(c & Hc & -> & _)]].
  - unfold fillHash, hashConsistent. destruct (hash inc) as [h|] eqn:Hh.
    + split; [by rewrite Hh|]. by apply (Hbatch key inc Hin).
    + simpl. split; [eauto|]. by intros h [= <-].
  - destruct (Hok key c Hc) as [Hsome Hcons]. split; [done|]. exact Hcons.
Qed.

(** X8. Exactly when a call returns: when no entry that passes the guards and
    carries a value either has version 0 for a key the store lacks, or meets a
    stored record of the same version and originatorId that has no value. *)
Theorem mergeKeyValues_returns_iff filters store batch :
  (∃ s' delta, mergeKeyValues store batch filters = Done s' delta)
  ↔ ∀ key inc, batch !! key = Some inc →
      ¬ entryFaults filters key inc (store !! key).
Proof.
  split.
  - intros (s' & delta & Hrun) key inc Hin Hf.
    apply entryDecision_fail_iff in Hf as [e He].
    pose proof (mergeKeyValues_at _ _ _ _ _ _ _ Hrun Hin) as H.
    by rewrite He in H.
  - intros Hok. apply mergeLoop_returns; [apply NoDup_fst_map_to_list|].
    intros key inc e Hin%elem_of_map_to_list He.
    apply (Hok key inc Hin). apply entryDecision_fail_iff. eauto.
Qed.

(** X9. For a key the store lacks, a returning call either stores the
    incoming record (hash filled in) and announces it, which takes an entry
    that passes the guards, carries a value and has a positive version; or it
    leaves the key absent: a ttl-only message or a negative version never
    creates a key. *)
Theorem new_key_needs_value_and_version filters store batch s' delta key inc :
  mergeKeyValues store batch filters = Done s' delta →
  batch !! key = Some inc →
  store !! key = None →
  (s' !! key = Some (fillHash inc) ∧ delta !! key = Some inc
   ∧ passesGuards filters key inc ∧ is_Some (value inc) ∧ 0 < version inc)
  ∨ (s' !! key = None ∧ delta !! key = None
     ∧ (¬ passesGuards filters key inc ∨ value inc = None ∨ version inc < 0)).
Proof.
  intros Hrun Hin Hnone.
  pose proof (mergeKeyValues_at _ _ _ _ _ _ _ Hrun Hin) as H. rewrite Hnone in H.
  destruct (decide (passesGuards filters key inc)) as [Hpass|Hnpass].
  2:{ rewrite entryDecision_skipped in H by done. destruct H.
      right. split_and!; try done. by left. }
  destruct (value inc) as [nv|] eqn:Hnv.
  2:{ rewrite entryDecision_ttl_only in H by done. destruct H.
      right. split_and!; try done. right; by left. }
  rewrite entryDecision_absent in H by (by rewrite ?Hnv).
  destruct (Z.ltb_spec 0 (version inc)).
  - destruct H. left. split_and!; eauto.
  - destruct (Z.eqb_spec (version inc) 0); [done|]. destruct H.
    right. split_and!; try done. right; right. lia.
Qed.

End MergeExtras.

Section MergeCompose.
Context `{P : Platform}.

(** Once an entry has been written, the same entry changes nothing. *)
Lemma entryDecision_after_put filters key inc cur v :
  entryDecision filters key inc cur = Put v →
  entryDecision filters key inc (Some v) = Keep.
Proof.
  intros He.
  apply entryDecision_put_inv in He as
    [Hpass [(Hval & -> & _)|(c & _ & -> & Hv & Ho & Hlt & Hvalue)]].
  - destruct (fillHash_fields inc) as (Hfv & Hfo & Hfval & _ & Hft).
    destruct (entryDecision_value filters key inc (fillHash inc) Hpass Hval) as
      [[Hs _]|[(_ & Hr & _)|[(_ & _ & Hd)|(_ & _ & Hnone & _)]]]; [| |done|].
    + exfalso. by eapply supersedes_irrefl_fields; [..|exact Hs].
    + exfalso. destruct Hr as (_ & _ & _ & ?). lia.
    + exfalso. rewrite Hfval in Hnone. destruct Hval. congruence.
  - destruct (value inc) as [nv|] eqn:Hnv.
    + destruct Hvalue as [?|Heq]; [done|].
      destruct (entryDecision_value filters key inc (refreshTtl c inc) Hpass) as
        [[Hs _]|[(_ & Hr & _)|[(_ & _ & Hd)|(_ & _ & Hnone & _)]]];
        [by rewrite Hnv| | |done|].
      * exfalso. eapply supersedes_irrefl_fields; [..|exact Hs]; simpl; congruence.
      * exfalso. destruct Hr as (_ & _ & _ & Hr). simpl in Hr. lia.
      * exfalso. simpl in Hnone. congruence.
    + rewrite entryDecision_ttl_only by done. simpl.
      destruct (Z.ltb_spec (ttlVersion inc) (ttlVersion inc)); [lia|].
      by rewrite andb_false_r.
Qed.

(** X10. Merging the same batch again, or the delta that came back, into the
    store a call returned with changes nothing and announces nothing. *)
Theorem second_merge_is_silent filters store batch s' delta :
  mergeKeyValues store batch filters = Done s' delta →
  mergeKeyValues s' batch filters = Done s' ∅
  ∧ mergeKeyValues s' delta filters = Done s' ∅.
Proof.
  intros Hrun.
  assert (∀ key inc, batch !! key = Some inc →
            entryDecision filters key inc (s' !! key) = Keep) as Hkeep.
  { intros key inc Hin.
    pose proof (mergeKeyValues_at _ _ _ _ _ _ _ Hrun Hin) as H.
    destruct (entryDecision filters key inc (store !! key)) as [|v|] eqn:He;
      [| |done]; destruct H as [Hs _]; rewrite Hs.
    - exact He.
    - by eapply entryDecision_after_put. }
  split; apply mergeLoop_all_keep; intros key inc Hin%elem_of_map_to_list.
  - by apply Hkeep.
  - apply Hkeep.
    pose proof (mergeKeyValues_lookup _ _ _ _ _ key Hrun) as Hk.
    destruct (batch !! key) as [inc'|]; [|destruct Hk; congruence].
    destruct (entryDecision filters key inc' (store !! key));
      [destruct Hk; congruence|destruct Hk; congruence|done].
Qed.

(** A returning call is determined by what it does key by key. *)
Lemma mergeKeyValues_Done_iff filters store batch s' delta :
  mergeKeyValues store batch filters = Done s' delta
  ↔ ∀ key,
      match batch !! key with
      | None => s' !! key = store !! key ∧ delta !! key = None
      | Some inc =>
        match entryDecision filters key inc (store !! key) with
        | Keep => s' !! key = store !! key ∧ delta !! key = None
        | Put v => s' !! key = Some v ∧ delta !! key = Some inc
        | Fail _ => False
        end
      end.
Proof.
  split; [intros Hrun key; by apply mergeKeyValues_lookup|].
  intros Hspec.
  destruct (mergeLoop_returns filters (map_to_list batch) store ∅
              (NoDup_fst_map_to_list batch)) as (s2 & d2 & Hrun2).
  { intros key inc e Hin%elem_of_map_to_list He.
    specialize (Hspec key). by rewrite Hin, He in Hspec. }
  change (mergeKeyValues store batch filters = Done s2 d2) in Hrun2.
  rewrite Hrun2. enough (s2 = s' ∧ d2 = delta) as [-> ->] by done.
  enough (∀ k, s2 !! k = s' !! k ∧ d2 !! k = delta !! k) as Heq.
  { split; apply map_eq; intros k; apply Heq. }
  intros k. specialize (Hspec k).
  pose proof (mergeKeyValues_lookup _ _ _ _ _ k Hrun2) as H2.
  destruct (batch !! k) as [inc|].
  - destruct (entryDecision filters k inc (store !! k)); [| |done];
      destruct Hspec as [-> ->], H2 as [-> ->]; done.
  - destruct Hspec as [-> ->], H2 as [-> ->]; done.
Qed.

Lemma entryDecision_filter_irrelevant f key inc cur :
  keyMatch f key inc = true →
  entryDecision (Some f) key inc cur = entryDecision None key inc cur.
Proof. intros Hm. unfold entryDecision, filteredOut. by rewrite Hm. Qed.

Lemma entryDecision_filtered_out f key inc cur :
  keyMatch f key inc = false → entryDecision (Some f) key inc cur = Keep.
Proof. intros Hm. unfold entryDecision, filteredOut. by rewrite Hm. Qed.

(** X11. Merging a batch under a filter is merging, unfiltered, the entries
    of the batch that the filter matches: one call returns exactly when the
    other does, with the same store and delta. *)
Theorem filter_then_merge f store batch s' delta :
  mergeKeyValues store batch (Some f) = Done s' delta
  ↔ mergeKeyValues store (filterBatch f batch) None = Done s' delta.
Proof.
  rewrite !mergeKeyValues_Done_iff.
  apply forall_proper. intros key. unfold filterBatch.
  destruct (batch !! key) as [inc|] eqn:Hin.
  - destruct (keyMatch f key inc) eqn:Hm.
    + rewrite (proj2 (map_lookup_filter_Some _ batch key inc)) by done.
      by rewrite entryDecision_filter_irrelevant.
    + rewrite entryDecision_filtered_out by done.
      rewrite (proj2 (map_lookup_filter_None _ batch key)); [done|].
      right. intros inc' Hin' Hm'. simpl in Hm'. congruence.
  - rewrite (proj2 (map_lookup_filter_None _ batch key)); [done|]. by left.
Qed.

End MergeCompose.

Section MergeBatches.
Context `{P : Platform}.

Lemma mergeKeyValues_returns_when filters store batch :
  (∀ key inc e, batch !! key = Some inc →
     entryDecision filters key inc (store !! key) ≠ Fail e) →
  ∃ s' delta, mergeKeyValues store batch filters = Done s' delta.
Proof.
  intros Hok. apply mergeLoop_returns; [apply NoDup_fst_map_to_list|].
  intros key inc e Hin%elem_of_map_to_list. by apply Hok.
Qed.

Lemma merge_in_two_steps filters store (b1 b2 : gmap string Value) s1 d1 s2 d2 :
  b1 ##ₘ b2 →
  mergeKeyValues store b1 filters = Done s1 d1 →
  mergeKeyValues s1 b2 filters = Done s2 d2 →
  mergeKeyValues store (b1 ∪ b2) filters = Done s2 (d1 ∪ d2).
Proof.
  intros Hdisj Hrun1 Hrun2. apply mergeKeyValues_Done_iff. intros key.
  pose proof (mergeKeyValues_lookup _ _ _ _ _ key Hrun1) as H1.
  pose proof (mergeKeyValues_lookup _ _ _ _ _ key Hrun2) as H2.
  pose proof (map_disjoint_spec b1 b2) as [Hd _]. specialize (Hd Hdisj key).
  rewrite !lookup_union.
  destruct (b1 !! key) as [inc1|] eqn:Hb1, (b2 !! key) as [inc2|] eqn:Hb2; simpl.
  - by destruct (Hd inc1 inc2).
  - destruct H2 as [-> ->].
    destruct (entryDecision filters key inc1 (store !! key)); [| |done];
      destruct H1 as [-> ->]; done.
  - destruct H1 as [Hs ->]. rewrite Hs in H2.
    destruct (entryDecision filters key inc2 (store !! key)); [| |done];
      destruct H2 as [-> ->]; done.
  - destruct H1 as [Hs ->], H2 as [-> ->]. done.
Qed.

(** X12. A batch may be split: merging two batches with no key in common one
    after the other is merging their union, with the same final store, and the
    delta of the union is the two deltas together. *)
Theorem merge_disjoint_batches filters store (b1 b2 : gmap string Value) s' delta :
  b1 ##ₘ b2 →
  mergeKeyValues store (b1 ∪ b2) filters = Done s' delta
  ↔ ∃ s1 d1 d2,
      mergeKeyValues store b1 filters = Done s1 d1
      ∧ mergeKeyValues s1 b2 filters = Done s' d2
      ∧ delta = d1 ∪ d2.
Proof.
  intros Hdisj. split.
  - intros Hrun.
    pose proof (map_disjoint_spec b1 b2) as [Hd _].
    destruct (mergeKeyValues_returns_when filters store b1) as (s1 & d1 & Hrun1).
    { intros key inc e Hin He.
      pose proof (mergeKeyValues_lookup _ _ _ _ _ key Hrun) as H.
      rewrite (lookup_union_Some_l _ _ _ _ Hin), He in H. done. }
    destruct (mergeKeyValues_returns_when filters s1 b2) as (s2 & d2 & Hrun2).
    { intros key inc e Hin He.
      pose proof (mergeKeyValues_lookup _ _ _ _ _ key Hrun) as H.
      pose proof (mergeKeyValues_lookup _ _ _ _ _ key Hrun1) as H1.
      destruct (b1 !! key) as [inc1|] eqn:Hb1; [by destruct (Hd Hdisj key inc1 inc)|].
      destruct H1 as [Hs _]. rewrite Hs in He.
      rewrite (lookup_union_Some_r _ _ _ _ Hdisj Hin), He in H. done. }
    pose proof (merge_in_two_steps _ _ _ _ _ _ _ _ Hdisj Hrun1 Hrun2) as Hboth.
    rewrite Hrun in Hboth. injection Hboth as -> ->. eauto 10.
  - intros (s1 & d1 & d2 & Hrun1 & Hrun2 & ->). by eapply merge_in_two_steps.
Qed.

End MergeBatches.

(** * Convergence on one key *)

Section GoodComparisons.

Lemma GoodCmp_Z : GoodCmp Z.compare.
Proof.
  split.
  - apply Z.compare_eq_iff.
  - intros x y. apply Z.compare_antisym.
  - intros x y z. rewrite !Z.compare_gt_iff. lia.
Qed.

Lemma GoodCmp_string : GoodCmp String.compare.
Proof.
  split.
  - apply string_compare_eq.
  - intros x y. apply String.compare_antisym.
  - apply string_compare_gt_trans.
Qed.

Lemma GoodCmp_value : GoodCmp cmpValue.
Proof.
  split.
  - intros [a|] [b|]; simpl; try done.
    rewrite string_compare_eq. split; congruence.
  - intros [a|] [b|]; simpl; try done. apply String.compare_antisym.
  - intros [a|] [b|] [c|]; simpl; try done. apply string_compare_gt_trans.
Qed.

Lemma GoodCmp_lex {A B} (ca : A → A → comparison) (cb : B → B → comparison) :
  GoodCmp ca → GoodCmp cb → GoodCmp (lexCmp ca cb).
Proof.
  intros [Ha1 Ha2 Ha3] [Hb1 Hb2 Hb3]. split.
  - intros [a1 b1] [a2 b2]. unfold lexCmp. simpl.
    destruct (ca a1 a2) eqn:Ea; (split; [|intros [= -> ->]]); try done.
    + intros Eb. apply Ha1 in Ea. apply Hb1 in Eb. congruence.
    + rewrite (proj2 (Ha1 a2 a2) eq_refl) in Ea. by apply Hb1.
    + by rewrite (proj2 (Ha1 a2 a2) eq_refl) in Ea.
    + by rewrite (proj2 (Ha1 a2 a2) eq_refl) in Ea.
  - intros [a1 b1] [a2 b2]. unfold lexCmp. simpl.
    rewrite (Ha2 a1 a2). destruct (ca a1 a2); simpl; [apply Hb2|done..].
  - intros [a1 b1] [a2 b2] [a3 b3]. unfold lexCmp. simpl.
    destruct (ca a1 a2) eqn:E12; try done;
      destruct (ca a2 a3) eqn:E23; try done; intros H12 H23.
    + apply Ha1 in E12, E23. subst.
      rewrite (proj2 (Ha1 a3 a3) eq_refl). eauto.
    + apply Ha1 in E12. subst. by rewrite E23.
    + apply Ha1 in E23. subst. by rewrite E12.
    + by rewrite (Ha3 _ _ _ E12 E23).
Qed.

Lemma GoodCmp_rank : GoodCmp cmpRank.
Proof.
  unfold cmpRank.
  repeat apply GoodCmp_lex;
    auto using GoodCmp_Z, GoodCmp_string, GoodCmp_value.
Qed.

(** Taking the larger of three does not depend on the order. *)
Lemma pick_pick {K} (cmp : K → K → comparison) (a b c : K) :
  GoodCmp cmp →
  pick cmp b (pick cmp a c) = pick cmp a (pick cmp b c).
Proof.
  intros [H1 H2 H3]. unfold pick.
  assert (∀ x, cmp x x = Eq) as Hrefl by (intros x; by apply H1).
  assert (∀ x y, cmp x y = Lt → cmp y x = Gt) as Hflip.
  { intros x y E. by rewrite (H2 x y), E. }
  assert (∀ x y, cmp x y = Gt → cmp y x = Lt) as Hflip'.
  { intros x y E. by rewrite (H2 x y), E. }
  destruct (cmp a c) eqn:Eac; [apply H1 in Eac; subst a| |];
    (destruct (cmp b c) eqn:Ebc; [apply H1 in Ebc; subst b| |]);
    rewrite ?Hrefl, ?Eac, ?Ebc; try done.
  - (* a = c, b > c *)
    by rewrite (Hflip' _ _ Ebc).
  - (* a < c, b > c *)
    by rewrite (Hflip' _ _ (H3 _ _ _ Ebc (Hflip _ _ Eac))).
  - (* a > c, b = c *)
    by rewrite (Hflip' _ _ Eac).
  - (* a > c, b < c *)
    by rewrite (Hflip' _ _ (H3 _ _ _ Eac (Hflip _ _ Ebc))).
  - (* a > c, b > c *)
    destruct (cmp b a) eqn:Eba.
    + apply H1 in Eba. subst b. by rewrite Hrefl.
    + by rewrite (Hflip _ _ Eba).
    + by rewrite (Hflip' _ _ Eba).
Qed.

End GoodComparisons.

Section Convergence.
Context `{P : Platform}.

Lemma pick_comm {K} (cmp : K → K → comparison) (a b : K) :
  GoodCmp cmp → pick cmp a b = pick cmp b a.
Proof.
  intros [H1 H2 H3]. unfold pick. rewrite (H2 a b).
  destruct (cmp a b) eqn:E; simpl; try done. by apply H1 in E.
Qed.

(** On records that carry a value, "strictly ahead" is [cmpRank]. *)
Lemma newer_cmpRank x y :
  is_Some (value x) → is_Some (value y) →
  newer x y ↔ cmpRank (rank x) (rank y) = Gt.
Proof.
  intros [a Ha] [b Hb].
  unfold newer, supersedes, ttlRefreshes, lex_gt, cmpRank, lexCmp, rank. simpl.
  rewrite Ha, Hb. simpl.
  assert (∀ s, String.compare s s = Gt → False) as Hirr
    by (intros s; apply string_compare_gt_irrefl).
  assert (∀ s, String.compare s s = Lt → False) as Hirr'
    by (intros s; by rewrite string_compare_refl).
  destruct (Z.compare_spec (version x) (version y)) as [Hv|Hv|Hv].
  2:{ split; [|done]. intros [[?|[[? _]|[? _]]]|[? _]]; lia. }
  2:{ split; [|by left; left]. done. }
  destruct (String.compare (originatorId x) (originatorId y)) eqn:Eo.
  2:{ split; [|done].
      intros [[?|[[_ ?]|(_ & Ho & _)]]|(_ & Ho & _)];
        first [lia | done | rewrite Ho in Eo; by apply Hirr' in Eo]. }
  2:{ split; [done|]. intros _. left; right; left. done. }
  apply string_compare_eq in Eo.
  destruct (String.compare a b) eqn:Ev.
  2:{ split; [|done].
      intros [[?|[[_ ?]|(_ & _ & a' & b' & [= <-] & [= <-] & ?)]]|(_ & _ & [= ->] & _)];
        first [lia | done | congruence | by apply Hirr' in Ev]. }
  2:{ split; [done|]. intros _. left; right; right.
      split_and!; try done. by exists a, b. }
  apply string_compare_eq in Ev. subst b.
  destruct (Z.compare_spec (ttlVersion x) (ttlVersion y)) as [Ht|Ht|Ht].
  - split; [|done].
    intros [[?|[[_ ?]|(_ & _ & a' & b' & [= <-] & [= <-] & Hgt)]]|(_ & _ & _ & ?)];
      first [lia | done | by apply Hirr in Hgt].
  - split; [|done].
    intros [[?|[[_ ?]|(_ & _ & a' & b' & [= <-] & [= <-] & Hgt)]]|(_ & _ & _ & ?)];
      first [lia | done | by apply Hirr in Hgt].
  - split; [done|]. intros _. right. done.
Qed.

Lemma newer_asym x y :
  is_Some (value x) → is_Some (value y) → newer x y → newer y x → False.
Proof.
  intros Hx Hy Hxy Hyx.
  apply newer_cmpRank in Hxy; [|done..]. apply newer_cmpRank in Hyx; [|done..].
  pose proof (cmp_antisym _ GoodCmp_rank (rank x) (rank y)) as Ha.
  rewrite Hxy, Hyx in Ha. done.
Qed.

Lemma resolve_step filters key inc cur :
  is_Some (value inc) → 1 ≤ version inc →
  (∀ c, cur = Some c → is_Some (value c)) →
  (∀ e, entryDecision filters key inc cur ≠ Fail e)
  ∧ (∀ r, resolve filters key inc cur = Some r → is_Some (value r))
  ∧ rank <$> resolve filters key inc cur
    = stepRank (bool_decide (passesGuards filters key inc)) (rank inc) (rank <$> cur).
Proof.
  intros Hval Hver Hcur. unfold resolve, stepRank.
  destruct (decide (passesGuards filters key inc)) as [Hpass|Hnpass].
  2:{ rewrite entryDecision_skipped by done.
      rewrite bool_decide_eq_false_2 by done. split_and!; [done|exact Hcur|done]. }
  rewrite bool_decide_eq_true_2 by done.
  destruct cur as [c|]; simpl.
  - assert (is_Some (value c)) as Hc by (by apply Hcur).
    pose proof (newer_cmpRank inc c Hval Hc) as Hn. unfold newer in Hn.
    destruct (entryDecision_value filters key inc c Hpass Hval) as
      [[Hs Hd]|[(Hns & Hr & Hd)|[(Hns & Hnr & Hd)|(_ & _ & Hnone & _)]]];
      [| | |destruct Hc; congruence]; rewrite Hd.
    + split_and!; [done| |].
      * intros r [= <-]. by rewrite fillHash_value.
      * simpl. unfold pick. rewrite (proj1 Hn) by (by left).
        f_equal. unfold rank. by destruct (fillHash_fields inc) as (-> & -> & -> & _ & ->).
    + split_and!; [done| |].
      * intros r [= <-]. done.
      * simpl. unfold pick. rewrite (proj1 Hn) by (by right).
        f_equal. unfold rank. simpl. destruct Hr as (-> & -> & -> & _). done.
    + split_and!; [done| |].
      * intros r [= <-]. done.
      * simpl. unfold pick.
        assert (cmpRank (rank inc) (rank c) ≠ Gt) as Hng by (rewrite <- Hn; tauto).
        by destruct (cmpRank (rank inc) (rank c)).
  - rewrite entryDecision_absent by done.
    destruct (Z.ltb_spec 0 (version inc)); [|lia].
    split_and!; [done| |].
    + intros r [= <-]. by rewrite fillHash_value.
    + simpl. f_equal. unfold rank.
      by destruct (fillHash_fields inc) as (-> & -> & -> & _ & ->).
Qed.

Lemma stepRank_commute pa pb a b cur :
  stepRank pb b (stepRank pa a cur) = stepRank pa a (stepRank pb b cur).
Proof.
  unfold stepRank. destruct pa, pb, cur as [c|]; try done; f_equal.
  - apply pick_pick, GoodCmp_rank.
  - apply pick_comm, GoodCmp_rank.
Qed.

(** One call with a single record, in terms of [resolve]. *)
Lemma mergeKeyValues_single filters store key inc :
  (∀ e, entryDecision filters key inc (store !! key) ≠ Fail e) →
  ∃ s' delta,
    mergeKeyValues store {[ key := inc ]} filters = Done s' delta
    ∧ s' !! key = resolve filters key inc (store !! key)
    ∧ ∀ k, k ≠ key → s' !! k = store !! k.
Proof.
  intros Hok. unfold mergeKeyValues, mergeKeyValuesIn.
  rewrite map_to_list_singleton. simpl. rewrite mergeKeyValue_decision.
  unfold resolve.
  destruct (entryDecision filters key inc (store !! key)) as [|v|e] eqn:He; simpl.
  - eauto.
  - eexists _, _. split_and!; [done|by rewrite lookup_insert_eq|].
    intros k Hne. by rewrite lookup_insert_ne.
  - by destruct (Hok e).
Qed.

(** X13. Two records for one key, each with a value and a version of at
    least 1, merged one call after the other into a store whose record under
    that key (if any) has a value: both orders return, and leave the same
    version, originatorId, value and ttlVersion under every key. *)
Theorem two_records_converge filters (store : gmap string Value) key a b :
  (∀ c, store !! key = Some c → is_Some (value c)) →
  is_Some (value a) → 1 ≤ version a →
  is_Some (value b) → 1 ≤ version b →
  ∃ s1 d1 s12 d12 s2 d2 s21 d21,
    mergeKeyValues store {[ key := a ]} filters = Done s1 d1
    ∧ mergeKeyValues s1 {[ key := b ]} filters = Done s12 d12
    ∧ mergeKeyValues store {[ key := b ]} filters = Done s2 d2
    ∧ mergeKeyValues s2 {[ key := a ]} filters = Done s21 d21
    ∧ ∀ k, rank <$> s12 !! k = rank <$> s21 !! k.
Proof.
  intros Hcur Hva Hna Hvb Hnb.
  destruct (resolve_step filters key a (store !! key) Hva Hna Hcur)
    as (Hoka & Hvala & Hra).
  destruct (resolve_step filters key b (store !! key) Hvb Hnb Hcur)
    as (Hokb & Hvalb & Hrb).
  destruct (mergeKeyValues_single filters store key a Hoka)
    as (s1 & d1 & Hrun1 & Hs1 & Hother1).
  destruct (mergeKeyValues_single filters store key b Hokb)
    as (s2 & d2 & Hrun2 & Hs2 & Hother2).
  destruct (resolve_step filters key b (s1 !! key) Hvb Hnb)
    as (Hokab & _ & Hrab).
  { intros c Hc. apply Hvala. by rewrite <- Hs1. }
  destruct (resolve_step filters key a (s2 !! key) Hva Hna)
    as (Hokba & _ & Hrba).
  { intros c Hc. apply Hvalb. by rewrite <- Hs2. }
  destruct (mergeKeyValues_single filters s1 key b Hokab)
    as (s12 & d12 & Hrun12 & Hs12 & Hother12).
  destruct (mergeKeyValues_single filters s2 key a Hokba)
    as (s21 & d21 & Hrun21 & Hs21 & Hother21).
  exists s1, d1, s12, d12, s2, d2, s21, d21. split_and!; try done.
  intros k. destruct (decide (k = key)) as [->|Hne].
  - rewrite Hs12, Hs21, Hrab, Hrba, Hs1, Hs2, Hra, Hrb.
    apply stepRank_commute.
  - by rewrite Hother12, Hother21, Hother1, Hother2.
Qed.

End Convergence.

(** * Further properties of the comparator, the diff and the filters *)

Section CompareExtras.
Context `{P : Platform}.

Lemma string_compare_neg a b : string_compare a b < 0 ↔ String.compare a b = Lt.
Proof.
  pose proof (string_compare_sign a b) as H.
  destruct (String.compare a b); split; (done || lia).
Qed.

Lemma string_compare_flip a b :
  (0 < string_compare a b ↔ string_compare b a < 0)
  ∧ (string_compare a b = 0 ↔ string_compare b a = 0)
  ∧ (string_compare a b < 0 ↔ 0 < string_compare b a).
Proof.
  rewrite !string_compare_pos, !string_compare_neg, !string_compare_zero.
  rewrite (String.compare_antisym a b).
  destruct (String.compare b a); simpl; split_and!; split; (done || congruence).
Qed.

Lemma hashesEqual_sym v1 v2 : hashesEqual v1 v2 = hashesEqual v2 v1.
Proof.
  unfold hashesEqual. destruct (hash v1), (hash v2); try done. apply Z.eqb_sym.
Qed.

(** X14. Swapping the arguments of [compareValues] swaps the sign of the
    result, except when it is the "unknown" of a missing value: same version
    and originatorId, hashes not both present and equal, and a value missing
    on either side; then it is -2 both ways. *)
Theorem compareValues_swap v1 v2 :
  (version v1 = version v2 ∧ originatorId v1 = originatorId v2
   ∧ hashesEqual v1 v2 = false ∧ (value v1 = None ∨ value v2 = None)
   ∧ compareValues v1 v2 = -2 ∧ compareValues v2 v1 = -2)
  ∨ ((0 < compareValues v1 v2 ↔ compareValues v2 v1 < 0)
     ∧ (compareValues v1 v2 = 0 ↔ compareValues v2 v1 = 0)
     ∧ (compareValues v1 v2 < 0 ↔ 0 < compareValues v2 v1)).
Proof.
  unfold compareValues. rewrite (hashesEqual_sym v2 v1).
  rewrite (Z.eqb_sym (version v2) (version v1)).
  destruct (Z.eqb_spec (version v1) (version v2)) as [Hv|Hv]; simpl.
  2:{ right. destruct (Z.ltb_spec (version v2) (version v1)),
        (Z.ltb_spec (version v1) (version v2)); try lia;
        split_and!; split; lia. }
  unfold string_eq. rewrite (String.eqb_sym (originatorId v2) (originatorId v1)).
  destruct (String.eqb_spec (originatorId v1) (originatorId v2)) as [Ho|Ho]; simpl.
  2:{ right.
      destruct (string_gt (originatorId v1) (originatorId v2)) eqn:E1,
        (string_gt (originatorId v2) (originatorId v1)) eqn:E2; bool_to_prop.
      - by apply string_compare_gt_asym in E1.
      - split_and!; split; lia.
      - split_and!; split; lia.
      - exfalso.
        rewrite (String.compare_antisym (originatorId v2) (originatorId v1)) in E2.
        destruct (String.compare (originatorId v1) (originatorId v2)) eqn:E;
          [by apply string_compare_eq in E|by apply E2|by apply E1]. }
  destruct (hashesEqual v1 v2) eqn:Hh.
  { right. rewrite (Z.eqb_sym (ttlVersion v2) (ttlVersion v1)).
    destruct (Z.eqb_spec (ttlVersion v1) (ttlVersion v2)); simpl.
    - split_and!; split; lia.
    - destruct (Z.ltb_spec (ttlVersion v2) (ttlVersion v1)),
        (Z.ltb_spec (ttlVersion v1) (ttlVersion v2)); try lia;
        split_and!; split; lia. }
  destruct (value v1) as [a|] eqn:Ha, (value v2) as [b|] eqn:Hb.
  - right. apply string_compare_flip.
  - left. split_and!; auto.
  - left. split_and!; auto.
  - left. split_and!; auto.
Qed.

(** A record compared with itself gives 0 when it has a hash or a
    value, and the "unknown" -2 when it has neither. *)
Theorem compareValues_self v :
  compareValues v v = if bool_decide (is_Some (hash v) ∨ is_Some (value v)) then 0 else -2.
Proof.
  unfold compareValues, hashesEqual, string_eq.
  rewrite Z.eqb_refl, String.eqb_refl.
  destruct (hash v) as [h|], (value v) as [a|]; rewrite ?Z.eqb_refl;
    cbn [negb]; case_bool_decide as Hd; try done.
  - exfalso. apply Hd. left; eauto.
  - exfalso. apply Hd. left; eauto.
  - by apply string_compare_zero.
  - exfalso. apply Hd. right; eauto.
  - exfalso. by destruct Hd as [[? ?]|[? ?]].
Qed.

(** When the hashes do not settle it and both values are there, the
    comparator follows the order of the merge engine. *)
Lemma compareValues_supersedes v1 v2 :
  hashesEqual v1 v2 = false → is_Some (value v1) → is_Some (value v2) →
  (0 < compareValues v1 v2 ↔ supersedes v1 v2)
  ∧ (compareValues v1 v2 < 0 ↔ supersedes v2 v1).
Proof.
  intros Hh [a Ha] [b Hb]. unfold compareValues, supersedes, lex_gt.
  rewrite Hh, Ha, Hb.
  assert (∀ s, String.compare s s = Gt → False) as Hirr
    by (intros s; apply string_compare_gt_irrefl).
  destruct (Z.eqb_spec (version v1) (version v2)) as [Hv|Hv]; simpl.
  2:{ destruct (Z.ltb_spec (version v2) (version v1)); split; split;
        try lia; try (intros [?|[[? _]|[? _]]]; lia); intros _; left; lia. }
  destruct (string_eq (originatorId v1) (originatorId v2)) eqn:Ho; simpl;
    bool_to_prop.
  2:{ destruct (string_gt (originatorId v1) (originatorId v2)) eqn:Hg;
        bool_to_prop; split; split; try lia.
      - intros _. right; left. done.
      - intros [?|[[_ Hg']|(_ & ? & _)]]; [lia| |congruence].
        by apply string_compare_gt_asym in Hg.
      - intros [?|[[_ ?]|(_ & ? & _)]]; [lia|done|done].
      - intros _. right; left. split; [done|].
        rewrite String.compare_antisym.
        destruct (String.compare (originatorId v1) (originatorId v2)) eqn:E;
          [by apply string_compare_eq in E|done|done]. }
  rewrite string_compare_pos, string_compare_neg.
  split; split.
  - intros Hgt. right; right. split_and!; try done. by exists a, b.
  - intros [?|[[_ Hgt]|(_ & _ & a' & b' & [= <-] & [= <-] & Hgt)]]; [lia| |done].
    rewrite Ho in Hgt. by apply Hirr in Hgt.
  - intros Hlt. right; right. split_and!; try done. exists b, a.
    split_and!; try done. by rewrite String.compare_antisym, Hlt.
  - intros [?|[[_ Hgt]|(_ & _ & a' & b' & [= <-] & [= <-] & Hgt)]]; [lia| |].
    + rewrite Ho in Hgt. by apply Hirr in Hgt.
    + by rewrite String.compare_antisym, Hgt.
Qed.

(** X15. The comparator and the merge engine agree. With hashes that do not
    settle the comparison and values on both sides: when [compareValues(mine,
    theirs)] is positive, a store holding [theirs] takes [mine] (given a valid
    ttl) and announces it; when it is negative, the store keeps [theirs] and
    announces nothing. *)
Theorem compareValues_agrees_with_merge (store : gmap string Value) key mine theirs :
  store !! key = Some theirs →
  hashesEqual mine theirs = false →
  is_Some (value mine) → is_Some (value theirs) →
  ttlInvalid mine = false →
  (0 < compareValues mine theirs →
   mergeKeyValues store {[ key := mine ]} None
   = Done (<[key := fillHash mine]> store) {[ key := mine ]})
  ∧ (compareValues mine theirs < 0 →
     mergeKeyValues store {[ key := mine ]} None = Done store ∅).
Proof.
  intros Hcur Hh Hm Ht Httl.
  destruct (compareValues_supersedes mine theirs Hh Hm Ht) as [Hpos Hneg].
  assert (passesGuards None key mine) as Hpass by done.
  unfold mergeKeyValues, mergeKeyValuesIn.
  rewrite map_to_list_singleton. simpl. rewrite mergeKeyValue_decision, Hcur.
  destruct (entryDecision_value None key mine theirs Hpass Hm) as
    [[Hs Hd]|[(Hns & Hr & Hd)|[(Hns & Hnr & Hd)|(_ & _ & Hnone & _)]]];
    [| | |destruct Ht; congruence]; rewrite Hd; simpl.
  - split; [intros _|].
    + unfold emplace. by rewrite lookup_empty, insert_empty.
    + intros Hlt%Hneg. exfalso.
      apply (newer_asym mine theirs); [done|done|by left|by left].
  - split; [intros Hgt%Hpos; done|].
    intros Hlt%Hneg. exfalso.
    destruct Hr as (Hv & Ho & Hval & _).
    eapply supersedes_irrefl_fields; [..|exact Hlt]; done.
  - split; [intros Hgt%Hpos; done|done].
Qed.

End CompareExtras.

Section DumpExtras.
Context `{P : Platform}.

(** The keys the loop asks for, in the order it visits them. *)
Lemma dumpFold_tobe mine theirs keys kvs0 tobe0 :
  (foldl (λ acc key, dumpKey mine theirs key acc) (kvs0, tobe0) keys).2
  = tobe0 ++ filter (λ k, wants mine theirs k = true) keys.
Proof.
  revert kvs0 tobe0. induction keys as [|k0 rest IH]; intros kvs0 tobe0.
  - simpl. by rewrite filter_nil, app_nil_r.
  - cbn [foldl].
    assert (∃ kvs1, dumpKey mine theirs k0 (kvs0, tobe0)
                    = (kvs1, if wants mine theirs k0 then tobe0 ++ [k0] else tobe0))
      as [kvs1 ->].
    { unfold dumpKey, wants. destruct (mine !! k0); [|eauto].
      destruct (theirs !! k0); eauto. }
    rewrite IH. destruct (wants mine theirs k0) eqn:Hw.
    + rewrite filter_cons_True by done. by rewrite <- app_assoc.
    + rewrite filter_cons_False by (by rewrite Hw). done.
Qed.

Lemma dumpDifference_unfold a mine theirs :
  ∃ kvs,
    dumpDifference a mine theirs
    = mkPublication a kvs
        (Some (filter (λ k, wants mine theirs k = true)
                 (elements (dom mine ∪ dom theirs))))
    ∧ ∀ k, kvs !! k = sends mine theirs k.
Proof.
  unfold dumpDifference, dumpDifferenceIn.
  pose proof (dumpFold_tobe mine theirs (elements (dom mine ∪ dom theirs)) ∅ [])
    as Htobe.
  destruct (foldl _ _ _) as [kvs tobe] eqn:Hrun. simpl in Htobe. subst tobe.
  exists kvs. split; [done|]. intros k.
  pose proof (dumpFold_spec mine theirs _ ∅ [] (NoDup_elements _)
                (λ k _, lookup_empty k) kvs _ Hrun k) as [Hkvs _].
  rewrite Hkvs. case_decide as Hin; [done|].
  rewrite lookup_empty. unfold sends.
  rewrite elem_of_elements, elem_of_union, !elem_of_dom in Hin.
  destruct (mine !! k) eqn:Hm; [|done]. exfalso. apply Hin. left. eauto.
Qed.

(** X16. [dumpDifference] sends only records that [mine] holds, as it holds
    them; asks only for keys that [theirs] holds; and asks for no key twice. *)
Theorem dumpDifference_sound a mine theirs :
  ∃ tobe,
    tobeUpdatedKeys (dumpDifference a mine theirs) = Some tobe
    ∧ NoDup tobe
    ∧ (∀ k, k ∈ tobe → is_Some (theirs !! k))
    ∧ keyVals (dumpDifference a mine theirs) ⊆ mine.
Proof.
  destruct (dumpDifference_unfold a mine theirs) as (kvs & -> & Hkvs).
  eexists. split; [done|]. simpl. split_and!.
  - apply NoDup_filter, NoDup_elements.
  - intros k [Hw Hin]%list_elem_of_filter.
    rewrite elem_of_elements, elem_of_union, !elem_of_dom in Hin.
    unfold wants in Hw. destruct (mine !! k); [|by destruct Hin as [[]|]].
    by destruct (theirs !! k).
  - apply map_subseteq_spec. intros k v. rewrite Hkvs. unfold sends.
    destruct (mine !! k); [|done]. destruct (theirs !! k); [|done].
    by case_match.
Qed.

(** X17. Against an empty map: with nothing on their side, everything of
    [mine] is sent and nothing is asked for; with nothing on my side, nothing
    is sent and every key of [theirs] is asked for. *)
Theorem dumpDifference_empty a (m : gmap string Value) :
  dumpDifference a m ∅ = mkPublication a m (Some [])
  ∧ ∃ tobe,
      dumpDifference a ∅ m = mkPublication a ∅ (Some tobe)
      ∧ tobe ≡ₚ elements (dom m).
Proof.
  split.
  - destruct (dumpDifference_unfold a m ∅) as (kvs & -> & Hkvs). f_equal.
    + apply map_eq. intros k. rewrite Hkvs. unfold sends.
      destruct (m !! k); [|done]. by rewrite lookup_empty.
    + f_equal. apply elem_of_nil_inv. intros k [Hw Hin]%list_elem_of_filter.
      rewrite elem_of_elements, elem_of_union, !elem_of_dom in Hin.
      unfold wants in Hw. rewrite lookup_empty in Hw, Hin.
      destruct (m !! k); [done|]. by destruct Hin as [[]|[]].
  - destruct (dumpDifference_unfold a ∅ m) as (kvs & -> & Hkvs). eexists.
    split.
    + f_equal. apply map_eq. intros k. rewrite Hkvs. unfold sends.
      by rewrite !lookup_empty.
    + apply NoDup_Permutation; [apply NoDup_filter, NoDup_elements
                               |apply NoDup_elements|].
      intros k. rewrite list_elem_of_filter, !elem_of_elements, elem_of_union.
      rewrite dom_empty_L. unfold wants. rewrite lookup_empty. set_solver.
Qed.

(** X18. A map diffed against itself gives nothing to send and nothing to
    ask for, provided each of its records has a hash or a value. *)
Theorem dumpDifference_self a (m : gmap string Value) :
  (∀ k v, m !! k = Some v → is_Some (hash v) ∨ is_Some (value v)) →
  dumpDifference a m m = mkPublication a ∅ (Some []).
Proof.
  intros Hm.
  assert (∀ k v, m !! k = Some v → compareValues v v = 0) as Hzero.
  { intros k v Hk. unfold compareValues, hashesEqual, string_eq.
    rewrite Z.eqb_refl, String.eqb_refl. cbn [negb].
    destruct (Hm k v Hk) as [[h ->]|[x Hx]].
    - by rewrite !Z.eqb_refl.
    - destruct (hash v); [by rewrite !Z.eqb_refl|].
      rewrite Hx. by apply string_compare_zero. }
  destruct (dumpDifference_unfold a m m) as (kvs & -> & Hkvs). f_equal.
  - apply map_eq. intros k. rewrite Hkvs, lookup_empty. unfold sends.
    destruct (m !! k) as [v|] eqn:Hk; [|done]. by rewrite (Hzero k v Hk).
  - f_equal. apply elem_of_nil_inv. intros k [Hw Hin]%list_elem_of_filter.
    rewrite elem_of_elements, elem_of_union, !elem_of_dom in Hin.
    unfold wants in Hw. destruct (m !! k) as [v|] eqn:Hk.
    + by rewrite (Hzero k v Hk) in Hw.
    + by destruct Hin as [[]|[]].
Qed.

(** X19. For a key both sides hold with different versions or different
    originatorIds, exactly one thing happens: my record is sent, or the key is
    asked for, never both and never neither. *)
Theorem dumpDifference_decides a mine theirs key m t :
  mine !! key = Some m → theirs !! key = Some t →
  version m ≠ version t ∨ originatorId m ≠ originatorId t →
  ∃ tobe,
    tobeUpdatedKeys (dumpDifference a mine theirs) = Some tobe
    ∧ ((keyVals (dumpDifference a mine theirs) !! key = Some m ∧ key ∉ tobe)
       ∨ (keyVals (dumpDifference a mine theirs) !! key = None ∧ key ∈ tobe)).
Proof.
  intros Hm Ht Hdiff.
  destruct (dumpDifference_unfold a mine theirs) as (kvs & -> & Hkvs).
  eexists. split; [done|]. simpl.
  rewrite Hkvs, list_elem_of_filter, elem_of_elements, elem_of_union, !elem_of_dom.
  unfold sends, wants. rewrite Hm, Ht.
  assert (compareValues m t = 1 ∨ compareValues m t = -1) as [->| ->].
  { unfold compareValues.
    destruct (Z.eqb_spec (version m) (version t)); simpl; [|case_match; tauto].
    destruct (string_eq (originatorId m) (originatorId t)) eqn:Ho; simpl;
      [|case_match; tauto].
    apply string_eq_spec in Ho. tauto. }
  - left. simpl. split; [done|]. by intros [? _].
  - right. simpl. split; [done|]. split; [done|]. left. eauto.
Qed.

(** X20. The order in which the loop of [dumpDifference] visits the keys
    decides only the order of [tobeUpdatedKeys]: two visiting orders of the
    same keys give the same [keyVals] and the same keys to ask for. *)
Theorem dumpDifferenceIn_order_independent a mine theirs keys1 keys2 :
  NoDup keys1 →
  keys1 ≡ₚ keys2 →
  ∃ tobe1 tobe2,
    tobeUpdatedKeys (dumpDifferenceIn keys1 a mine theirs) = Some tobe1
    ∧ tobeUpdatedKeys (dumpDifferenceIn keys2 a mine theirs) = Some tobe2
    ∧ tobe1 ≡ₚ tobe2
    ∧ keyVals (dumpDifferenceIn keys1 a mine theirs)
      = keyVals (dumpDifferenceIn keys2 a mine theirs).
Proof.
  intros Hnd Hperm. assert (NoDup keys2) as Hnd2 by (by rewrite <- Hperm).
  unfold dumpDifferenceIn.
  pose proof (dumpFold_tobe mine theirs keys1 ∅ []) as Ht1.
  pose proof (dumpFold_tobe mine theirs keys2 ∅ []) as Ht2.
  destruct (foldl _ _ keys1) as [kvs1 tobe1] eqn:Hrun1.
  destruct (foldl _ _ keys2) as [kvs2 tobe2] eqn:Hrun2.
  simpl in *. subst tobe1 tobe2. eexists _, _. split_and!; [done..| |].
  - by rewrite Hperm.
  - apply map_eq. intros k.
    pose proof (dumpFold_spec mine theirs _ ∅ [] Hnd
                  (λ k _, lookup_empty k) kvs1 _ Hrun1 k) as [-> _].
    pose proof (dumpFold_spec mine theirs _ ∅ [] Hnd2
                  (λ k _, lookup_empty k) kvs2 _ Hrun2 k) as [-> _].
    destruct (decide (k ∈ keys1)) as [Hin|Hout].
    + rewrite decide_True; [done|]. by rewrite <- Hperm.
    + rewrite decide_False; [done|]. by rewrite <- Hperm.
Qed.

End DumpExtras.

Section FilterExtras.
Context `{P : Platform}.

(** X21. The AND filter accepts nothing that the OR filter rejects. *)
Theorem keyMatchAll_implies_keyMatchAny f key v :
  keyMatchAll f key v = true → keyMatchAny f key v = true.
Proof.
  unfold keyMatchAll, keyMatchAny, set_empty, set_count.
  destruct (is_empty_list (keyPrefixList_ f)) eqn:El,
    (RegexSet_match (keyPrefixList_ f) key) eqn:Em;
    repeat case_bool_decide; simpl; done.
Qed.

Lemma keyMatchAny_with_prefixes f key v :
  keyPrefixList_ f ≠ [] →
  keyMatchAny f key v = true
  ↔ matchesSomePrefix f key ∨ originatorId v ∈ originatorIds_ f.
Proof.
  intros Hne. unfold keyMatchAny, set_empty, set_count.
  destruct (is_empty_list (keyPrefixList_ f)) eqn:El;
    [by apply is_empty_list_spec in El|]. simpl.
  destruct (RegexSet_match (keyPrefixList_ f) key) eqn:Em.
  - apply RegexSet_match_spec in Em. tauto.
  - apply not_true_iff_false in Em. rewrite RegexSet_match_spec in Em.
    repeat case_bool_decide; simpl; split; try done; try tauto.
    intros [?|Hin]; [done|]. exfalso.
    match goal with H : originatorIds_ f = ∅ |- _ => rewrite H in Hin end.
    by apply not_elem_of_empty in Hin.
Qed.

Variables kPrefixAllocMarker kNodeLabelRangePrefix : string.

(** X22. [getKvStoreFilters] gives no filter unless the node is configured
    as a leaf. For a leaf it gives a filter that lets a record through
    exactly when its key matches one of the configured prefixes or one of the
    two markers, or its originatorId is one of the configured ones or the
    node's own name; so a leaf never drops its own records. *)
Theorem getKvStoreFilters_spec config :
  (getKvStoreFilters kPrefixAllocMarker kNodeLabelRangePrefix config = None
   ↔ set_leaf_node config ≠ Some true)
  ∧ ∀ f, getKvStoreFilters kPrefixAllocMarker kNodeLabelRangePrefix config = Some f →
      ∀ key v,
        (keyMatch f key v = true
         ↔ (∃ p, (p ∈ default [] (key_prefix_filters config)
                  ∨ p = kPrefixAllocMarker ∨ p = kNodeLabelRangePrefix)
                 ∧ re2_match p key = true)
           ∨ originatorId v ∈ default [] (key_originator_id_filters config)
           ∨ originatorId v = getNodeName config)
        ∧ (originatorId v = getNodeName config →
           filteredOut (Some f) key v = false).
Proof.
  unfold getKvStoreFilters. split.
  - destruct (set_leaf_node config) as [[]|]; simpl; split; congruence.
  - intros f Hf. destruct (default false (set_leaf_node config)); [|done].
    injection Hf as <-. intros key v.
    match goal with |- (keyMatch ?f0 _ _ = _ ↔ _) ∧ _ => set (f := f0) end.
    assert (keyMatch f key v = true
            ↔ (∃ p, (p ∈ default [] (key_prefix_filters config)
                     ∨ p = kPrefixAllocMarker ∨ p = kNodeLabelRangePrefix)
                    ∧ re2_match p key = true)
              ∨ originatorId v ∈ default [] (key_originator_id_filters config)
              ∨ originatorId v = getNodeName config) as Hiff.
    { change (keyMatch f key v) with (keyMatchAny f key v).
      rewrite keyMatchAny_with_prefixes.
      2:{ unfold f. simpl. by destruct (default [] (key_prefix_filters config)). }
      unfold matchesSomePrefix, f. simpl.
      rewrite elem_of_union, elem_of_list_to_set, elem_of_singleton.
      apply or_iff_compat_r.
      split; intros (p & Hp & Hm); exists p; (split; [|done]).
      - rewrite elem_of_app, !elem_of_cons, elem_of_nil in Hp. tauto.
      - rewrite elem_of_app, !elem_of_cons, elem_of_nil. tauto. }
    split; [exact Hiff|].
    intros Hown. unfold filteredOut.
    rewrite (proj2 Hiff); [done|]. right; right. done.
Qed.

End FilterExtras.

(** * The further properties on concrete stores and batches *)

Section ExtraScenarios.
Local Open Scope string_scope.
Import Sample.

(** [storeA] takes the batch {a, c}: "a" is replaced, "c" is created. *)
Lemma storeA_takes_batchAC :
  mergeKeyValues storeA batchAC None = Done storeAC batchAC.
Proof. vm_compute. reflexivity. Defined.

Lemma delta_within_batch_witness :
  batchAC ⊆ batchAC ∧ ∀ key inc, batchAC !! key = Some inc → passesGuards None key inc.
Proof.
  exact (delta_within_batch None storeA batchAC storeAC batchAC storeA_takes_batchAC).
Defined.

Lemma store_keys_grow_by_delta_witness :
  dom storeAC = dom storeA ∪ dom batchAC.
Proof.
  exact (store_keys_grow_by_delta None storeA batchAC storeAC batchAC
           storeA_takes_batchAC).
Defined.

Lemma delta_is_what_changed_witness :
  is_Some (batchAC !! "a") ↔ storeAC !! "a" ≠ storeA !! "a".
Proof.
  exact (delta_is_what_changed None storeA batchAC storeAC batchAC "a"
           storeA_takes_batchAC).
Defined.

Lemma announced_update_is_newer_witness :
  ∃ cur', storeAC !! "a" = Some cur' ∧ newer cur' a_v1_x_A.
Proof.
  apply (announced_update_is_newer None storeA batchAC storeAC batchAC "a" a_v1_x_A
           storeA_takes_batchAC); [reflexivity | by eexists].
Defined.

Lemma storeA_ttls_valid : storeTtlsValid storeA.
Proof.
  intros key cur Hin. unfold storeA in Hin.
  apply lookup_singleton_Some in Hin as [_ <-]. reflexivity.
Defined.

Lemma ttls_stay_valid_witness : storeTtlsValid storeA ∧ storeTtlsValid storeAC.
Proof.
  split; [exact storeA_ttls_valid|].
  exact (ttls_stay_valid None storeA batchAC storeAC batchAC storeA_ttls_valid
           storeA_takes_batchAC).
Defined.

Lemma storeA_has_values : storeHasValues storeA.
Proof.
  intros key cur Hin. unfold storeA in Hin.
  apply lookup_singleton_Some in Hin as [_ <-]. by eexists.
Defined.

Lemma mergeKeyValues_keeps_values_witness :
  storeHasValues storeA ∧ storeHasValues storeAC.
Proof.
  split; [exact storeA_has_values|].
  exact (mergeKeyValues_keeps_values None storeA batchAC storeAC batchAC
           storeA_has_values storeA_takes_batchAC).
Defined.

Lemma hashes_stay_consistent_witness :
  storeHashed storeAh
  ∧ mergeKeyValues storeAh batchAC None = Done storeAC batchAC
  ∧ storeHashed storeAC.
Proof.
  assert (storeHashed storeAh) as Hs.
  { intros key cur Hin. unfold storeAh in Hin.
    apply lookup_singleton_Some in Hin as [_ <-].
    split; [by eexists|]. intros h [= <-]. reflexivity. }
  assert (∀ key inc, batchAC !! key = Some inc → hashConsistent inc) as Hb.
  { intros key inc Hin h Hh. unfold batchAC in Hin.
    apply lookup_insert_Some in Hin as [[_ <-]|[_ Hin]]; [done|].
    apply lookup_singleton_Some in Hin as [_ <-]. done. }
  assert (mergeKeyValues storeAh batchAC None = Done storeAC batchAC) as Hrun
    by (vm_compute; reflexivity).
  split_and!; [exact Hs | exact Hrun |].
  exact (hashes_stay_consistent None storeAh batchAC storeAC batchAC Hs Hb Hrun).
Defined.

Lemma mergeKeyValues_returns_iff_witness :
  (∃ s' delta, mergeKeyValues storeA batchAC None = Done s' delta)
  ∧ ∀ key inc, batchAC !! key = Some inc → ¬ entryFaults None key inc (storeA !! key).
Proof.
  assert (∃ s' delta, mergeKeyValues storeA batchAC None = Done s' delta) as Hret
    by (exists storeAC, batchAC; exact storeA_takes_batchAC).
  split; [exact Hret|].
  exact (proj1 (mergeKeyValues_returns_iff None storeA batchAC) Hret).
Defined.

Lemma new_key_needs_value_and_version_witness :
  (storeAC !! "c" = Some (fillHash c_v1_z_C) ∧ batchAC !! "c" = Some c_v1_z_C
   ∧ passesGuards None "c" c_v1_z_C ∧ is_Some (value c_v1_z_C)
   ∧ 0 < version c_v1_z_C)
  ∨ (storeAC !! "c" = None ∧ batchAC !! "c" = None
     ∧ (¬ passesGuards None "c" c_v1_z_C ∨ value c_v1_z_C = None
        ∨ version c_v1_z_C < 0)).
Proof.
  apply (new_key_needs_value_and_version None storeA batchAC storeAC batchAC "c"
           c_v1_z_C storeA_takes_batchAC); reflexivity.
Defined.

Lemma second_merge_is_silent_witness :
  mergeKeyValues storeAC batchAC None = Done storeAC ∅
  ∧ mergeKeyValues storeAC batchAC None = Done storeAC ∅.
Proof.
  exact (second_merge_is_silent None storeA batchAC storeAC batchAC
           storeA_takes_batchAC).
Defined.

(** A filter that lets only keys starting with "c" through. *)
Lemma filter_then_merge_witness :
  let f := mkKvStoreFilters ["c"] ∅ OR in
  let s' : gmap string Value := {[ "a" := a_v1_x_A;
                                   "c" := mkValue 1 "z" (Some "C") 60000 0 (Some 3) ]} in
  let delta : gmap string Value := {[ "c" := c_v1_z_C ]} in
  mergeKeyValues storeA batchAC (Some f) = Done s' delta
  ∧ mergeKeyValues storeA (filterBatch f batchAC) None = Done s' delta.
Proof.
  intros f s' delta.
  assert (mergeKeyValues storeA batchAC (Some f) = Done s' delta) as Hrun
    by (vm_compute; reflexivity).
  split; [exact Hrun|].
  exact (proj1 (filter_then_merge f storeA batchAC s' delta) Hrun).
Defined.

Lemma merge_disjoint_batches_witness :
  let b1 : gmap string Value := {[ "a" := a_v1_y_B ]} in
  let b2 : gmap string Value := {[ "c" := c_v1_z_C ]} in
  b1 ##ₘ b2
  ∧ mergeKeyValues storeA (b1 ∪ b2) None = Done storeAC batchAC
  ∧ ∃ s1 d1 d2,
      mergeKeyValues storeA b1 None = Done s1 d1
      ∧ mergeKeyValues s1 b2 None = Done storeAC d2
      ∧ batchAC = d1 ∪ d2.
Proof.
  intros b1 b2.
  assert (b1 ##ₘ b2) as Hdisj.
  { apply map_disjoint_singleton_l_2. apply lookup_singleton_ne. discriminate. }
  assert (mergeKeyValues storeA (b1 ∪ b2) None = Done storeAC batchAC) as Hrun
    by (vm_compute; reflexivity).
  split_and!; [exact Hdisj | exact Hrun |].
  exact (proj1 (merge_disjoint_batches None storeA b1 b2 storeAC batchAC Hdisj) Hrun).
Defined.

(** (v1, "y", "B") and (v1, "z", "C") for key "a", on top of (v1, "x", "A"). *)
Lemma two_records_converge_witness :
  ∃ s1 d1 s12 d12 s2 d2 s21 d21,
    mergeKeyValues storeA {[ "a" := a_v1_y_B ]} None = Done s1 d1
    ∧ mergeKeyValues s1 {[ "a" := c_v1_z_C ]} None = Done s12 d12
    ∧ mergeKeyValues storeA {[ "a" := c_v1_z_C ]} None = Done s2 d2
    ∧ mergeKeyValues s2 {[ "a" := a_v1_y_B ]} None = Done s21 d21
    ∧ ∀ k, rank <$> s12 !! k = rank <$> s21 !! k.
Proof.
  apply (two_records_converge None storeA "a" a_v1_y_B c_v1_z_C).
  - intros c Hc. exact (storeA_has_values "a" c Hc).
  - by eexists.
  - simpl. lia.
  - by eexists.
  - simpl. lia.
Defined.

Lemma compareValues_swap_witness :
  (0 < compareValues a_v1_y_B a_v1_x_A ↔ compareValues a_v1_x_A a_v1_y_B < 0)
  ∧ (compareValues a_v1_y_B a_v1_x_A = 0 ↔ compareValues a_v1_x_A a_v1_y_B = 0)
  ∧ (compareValues a_v1_y_B a_v1_x_A < 0 ↔ 0 < compareValues a_v1_x_A a_v1_y_B).
Proof.
  destruct (compareValues_swap a_v1_y_B a_v1_x_A) as [(_ & Ho & _)|H].
  - discriminate Ho.
  - exact H.
Defined.

Lemma compareValues_agrees_with_merge_witness :
  0 < compareValues a_v1_y_B a_v1_x_A
  ∧ mergeKeyValues storeA {[ "a" := a_v1_y_B ]} None
    = Done (<["a" := fillHash a_v1_y_B]> storeA) {[ "a" := a_v1_y_B ]}.
Proof.
  assert (0 < compareValues a_v1_y_B a_v1_x_A) as Hpos by reflexivity.
  split; [exact Hpos|].
  destruct (compareValues_agrees_with_merge storeA "a" a_v1_y_B a_v1_x_A)
    as [Hacc _]; [reflexivity | reflexivity | by eexists | by eexists | reflexivity |].
  exact (Hacc Hpos).
Defined.

Lemma dumpDifference_sound_witness :
  ∃ tobe,
    tobeUpdatedKeys (dumpDifference "0" storeA batchAC) = Some tobe
    ∧ NoDup tobe
    ∧ (∀ k, k ∈ tobe → is_Some (batchAC !! k))
    ∧ keyVals (dumpDifference "0" storeA batchAC) ⊆ storeA.
Proof. exact (dumpDifference_sound "0" storeA batchAC). Defined.

Lemma dumpDifference_empty_witness :
  dumpDifference "0" storeA ∅ = mkPublication "0" storeA (Some []).
Proof. exact (proj1 (dumpDifference_empty "0" storeA)). Defined.

Lemma dumpDifference_self_witness :
  dumpDifference "0" storeA storeA = mkPublication "0" ∅ (Some []).
Proof.
  apply (dumpDifference_self "0" storeA).
  intros k v Hin. unfold storeA in Hin.
  apply lookup_singleton_Some in Hin as [_ <-]. right. by eexists.
Defined.

Lemma dumpDifference_decides_witness :
  ∃ tobe,
    tobeUpdatedKeys (dumpDifference "0" storeA batchAC) = Some tobe
    ∧ ((keyVals (dumpDifference "0" storeA batchAC) !! "a" = Some a_v1_x_A
        ∧ "a" ∉ tobe)
       ∨ (keyVals (dumpDifference "0" storeA batchAC) !! "a" = None
          ∧ "a" ∈ tobe)).
Proof.
  apply (dumpDifference_decides "0" storeA batchAC "a" a_v1_x_A a_v1_y_B);
    [reflexivity | reflexivity | right; discriminate].
Defined.

Lemma dumpDifferenceIn_order_independent_witness :
  ∃ tobe1 tobe2,
    tobeUpdatedKeys (dumpDifferenceIn ["a"; "c"] "0" storeA batchAC) = Some tobe1
    ∧ tobeUpdatedKeys (dumpDifferenceIn ["c"; "a"] "0" storeA batchAC) = Some tobe2
    ∧ tobe1 ≡ₚ tobe2
    ∧ keyVals (dumpDifferenceIn ["a"; "c"] "0" storeA batchAC)
      = keyVals (dumpDifferenceIn ["c"; "a"] "0" storeA batchAC).
Proof.
  apply (dumpDifferenceIn_order_independent "0" storeA batchAC ["a"; "c"] ["c"; "a"]).
  - apply NoDup_cons. split; [|apply NoDup_singleton].
    intros Hin%list_elem_of_singleton. discriminate Hin.
  - apply perm_swap.
Defined.

Lemma keyMatchAll_implies_keyMatchAny_witness :
  let f := mkKvStoreFilters ["a"] {[ "x" ]} AND in
  keyMatchAll f "a" a_v1_x_A = true ∧ keyMatchAny f "a" a_v1_x_A = true.
Proof.
  intros f.
  assert (keyMatchAll f "a" a_v1_x_A = true) as Hall by reflexivity.
  split; [exact Hall|].
  exact (keyMatchAll_implies_keyMatchAny f "a" a_v1_x_A Hall).
Defined.

(** The leaf node "x" lets its own record through, whatever the key. *)
Lemma getKvStoreFilters_spec_witness :
  ∃ f, getKvStoreFilters "allocprefix:" "nodeLabel:" leafX = Some f
       ∧ filteredOut (Some f) "prefix:y" a_v1_x_A = false.
Proof.
  eexists. split; [reflexivity|].
  destruct (getKvStoreFilters_spec "allocprefix:" "nodeLabel:" leafX) as [_ Hleaf].
  destruct (Hleaf _ eq_refl "prefix:y" a_v1_x_A) as [_ Hown].
  apply Hown. reflexivity.
Defined.

End ExtraScenarios.

(** * A run that throws leaves a store that depends on the visiting order *)

Section ThrowingRuns.
Local Open Scope string_scope.
Import Sample.

(** C8 as stated fails: the store holds "b" with version 1, originator "x"
    and no value; the batch holds (v1, "x", "A") for "a" and for "b". The
    entry for "b" makes thrift throw on the unset stored value. Visiting "a"
    first, "a" has been inserted by then; visiting "b" first, it has not: the
    two copies of the store end up different. *)
Lemma throwing_merge_leaves_order_dependent_store :
  let store : gmap string Value := {[ "b" := a_v1_x_novalue ]} in
  let l1 := [("a", a_v1_x_A); ("b", a_v1_x_A)] in
  let l2 := [("b", a_v1_x_A); ("a", a_v1_x_A)] in
  let left1 : gmap string Value :=
    {[ "a" := fillHash a_v1_x_A; "b" := a_v1_x_novalue ]} in
  NoDup l1.*1 ∧ l1 ≡ₚ l2
  ∧ mergeKeyValuesIn l1 store None = Thrown left1
  ∧ mergeKeyValuesIn l2 store None = Thrown store
  ∧ left1 !! "a" = Some (fillHash a_v1_x_A) ∧ store !! "a" = None
  ∧ left1 ≠ store.
Proof.
  intros store l1 l2 left1. split_and!.
  - simpl. apply NoDup_cons. split; [|apply NoDup_singleton].
    intros Hin%list_elem_of_singleton. discriminate Hin.
  - apply perm_swap.
  - vm_compute. reflexivity.
  - vm_compute. reflexivity.
  - reflexivity.
  - reflexivity.
  - intros Heq. apply (f_equal (λ m : gmap string Value, m !! "a")) in Heq.
    discriminate Heq.
Qed.

End ThrowingRuns.
